(** * benthos: the drop_on output decorator, the websocket writer and the
      cache writer

    A shallow embedding of
    - [internal/old/output/drop_on.go]   ([newDropOn], [dropOn.loop],
      [dropOn.Consume], [dropOn.WaitForClose]),
    - [internal/old/output/writer/websocket.go] ([ConnectWithContext],
      [WriteWithContext]),
    - the cache writer's constructor [NewCache].

    Goroutines communicate through channels and [select]; the embedding
    makes the partners of every communication explicit: for each [select]
    the environment says at which instant each case can proceed, and the
    Go rule (the earliest case wins, a tie is broken by a random pick) is a
    function of that.  Time is counted in nanoseconds, as [time.Duration]
    does. *)

From Stdlib Require Import ZArith List String Bool Lia.
Import ListNotations.
Open Scope Z_scope.

(** ** Go values *)

Module Go.

(** [time.Duration] is a signed count of nanoseconds; instants of the
    monotonic clock are counted the same way. *)
Definition Duration := Z.
Definition Time := Z.

(** A channel made by [make]; a channel variable may also be [nil]. *)
Definition chan := nat.

(** Non-nil values of the interface [error].  A Go [error] is an
    [option error], [None] being [nil]. *)
Inductive error : Type :=
| ErrAlreadyStarted                       (* component.ErrAlreadyStarted *)
| ErrTimeout                              (* component.ErrTimeout *)
| ErrNotConnected                         (* component.ErrNotConnected *)
| ErrCloseSent                            (* websocket.ErrCloseSent *)
| Canceled                                (* context.Canceled *)
| Foreign (msg : string)                  (* raised by a collaborator *)
| Errorf_d (format : string) (arg : Duration)
| Errorf_s (format : string) (arg : string)
| Errorf_e (format : string) (arg : error).

Definition err := option error.

Definition is_nil (e : err) : bool :=
  match e with
  | None => true
  | Some _ => false
  end.

(** *** select *)

Section Select.
Context {A : Type}.

(** A case of a [select], seen from the goroutine that runs it: the
    instant from which its communication can proceed ([None]: never)
    and the branch it leads to. *)
Definition scase := (option Time * A)%type.

(** A case that could proceed before the [select] was reached proceeds
    when it is reached. *)
Definition due (now t : Time) : Time := Z.max now t.

Fixpoint earliest (now : Time) (cs : list scase) : option Time :=
  match cs with
  | [] => None
  | (None, _) :: r => earliest now r
  | (Some t, _) :: r =>
      match earliest now r with
      | None => Some (due now t)
      | Some m => Some (Z.min (due now t) m)
      end
  end.

Definition fires (now m : Time) (c : scase) : bool :=
  match fst c with
  | Some t => due now t =? m
  | None => false
  end.

(** A blocking [select]: it waits until the first instant at which a
    case can proceed and takes one of the cases that can proceed then,
    chosen by [pick].  [None]: no case ever proceeds, the goroutine
    blocks for ever. *)
Definition select (now : Time) (cs : list scase) (pick : nat)
  : option (Time * A) :=
  match earliest now cs with
  | None => None
  | Some m =>
      let ready := filter (fires now m) cs in
      match nth_error ready (pick mod List.length ready)%nat with
      | Some c => Some (m, snd c)
      | None => None
      end
  end.

Definition immediate (now : Time) (c : scase) : bool :=
  match fst c with
  | Some t => t <=? now
  | None => false
  end.

(** A [select] with a [default] branch never waits. *)
Definition select_default (now : Time) (cs : list scase) (pick : nat)
           (dflt : A) : A :=
  let ready := filter (immediate now) cs in
  match nth_error ready (pick mod List.length ready)%nat with
  | Some c => snd c
  | None => dflt
  end.
(** No case of [cs] can proceed before [m]. *)
Fixpoint none_before (now m : Time) (cs : list scase) : Prop :=
  match cs with
  | [] => True
  | (Some t, _) :: r => m <= due now t /\ none_before now m r
  | (None, _) :: r => none_before now m r
  end.
End Select.

(** [x], when it comes at all, comes after [bound]. *)
Definition later (x : option Z) (bound : Z) : Prop :=
  match x with
  | Some v => bound < v
  | None => True
  end.

(** [ctx.Done()] of a context cancelled at [cancel] can be received from
    at every instant from then on; [ctx.Err()] is non-nil from then on. *)
Definition ctx_Err (cancel : option Time) (now : Time) : err :=
  match cancel with
  | Some c => if c <=? now then Some Canceled else None
  | None => None
  end.

End Go.
Export Go.


(** ** Messages *)

Module Message.

(** [message.Batch]: the parts of a batch, each a byte string. *)
Definition Batch := list string.

(** [message.Transaction]: a batch and the channel its acknowledgement is
    sent on. *)
Record Transaction : Type := {
  Payload : Batch;
  responseChan : chan
}.

Definition NewTransaction (payload : Batch) (resChan : chan) : Transaction :=
  {| Payload := payload; responseChan := resChan |}.

End Message.
Export Message.

(** ** drop_on: data *)

Module DropOn.

Record DropOnConditions : Type := {
  Error : bool;
  BackPressure : string
}.

(** The struct [dropOn], for a child output whose state has type [W].  The
    fields [log] and [stats] are left out; the context [ctx] is
    represented by the instant at which [done] is called, an input of
    [loop]. *)
Record dropOn (W : Type) : Type := {
  onError : bool;
  onBackpressure : Duration;
  wrapped : W;
  transactionsIn : option chan;
  transactionsOut : chan;
  closedChan : chan
}.
Arguments onError {W} _.
Arguments onBackpressure {W} _.
Arguments wrapped {W} _.
Arguments transactionsIn {W} _.
Arguments transactionsOut {W} _.
Arguments closedChan {W} _.

(** The interface [output.Streamed], as far as [dropOn] calls it outside
    of its loop. *)
Class Streamed (W : Type) : Type := {
  Streamed_Consume : W -> chan -> W * err;
  Streamed_Connected : W -> bool
}.

Inductive goroutine : Type :=
| go_loop.

(** ** drop_on: construction and binding *)

Section Construction.
Context {W : Type} `{Streamed W}.

(** [time.ParseDuration], with Go's two results. *)
Variable ParseDuration : string -> Duration * err.

(** [mk] and [mk + 1] are the two channels that [make] returns. *)
Definition newDropOn (conf : DropOnConditions) (child : W) (mk : chan)
  : option (dropOn W) * err :=
  let parsed :=
    if (0 <? String.length (BackPressure conf))%nat
    then ParseDuration (BackPressure conf)
    else (0, None) in
  match snd parsed with
  | Some e =>
      (None, Some (Errorf_e "failed to parse back_pressure duration: %w" e))
  | None =>
      (Some {| onError := Error conf;
               onBackpressure := fst parsed;
               wrapped := child;
               transactionsIn := None;
               transactionsOut := mk;
               closedChan := S mk |}, None)
  end.

(** [Consume] returns the receiver as it leaves it, its result, and the
    goroutines it started. *)
Definition Consume (d : dropOn W) (ts : option chan)
  : dropOn W * err * list goroutine :=
  match transactionsIn d with
  | Some _ => (d, Some ErrAlreadyStarted, [])
  | None =>
      let (child, e) := Streamed_Consume (wrapped d) (transactionsOut d) in
      let d1 := {| onError := onError d;
                   onBackpressure := onBackpressure d;
                   wrapped := child;
                   transactionsIn := transactionsIn d;
                   transactionsOut := transactionsOut d;
                   closedChan := closedChan d |} in
      match e with
      | Some _ => (d1, e, [])
      | None =>
          ({| onError := onError d;
              onBackpressure := onBackpressure d;
              wrapped := child;
              transactionsIn := ts;
              transactionsOut := transactionsOut d;
              closedChan := closedChan d |}, None, [go_loop])
      end
  end.

Definition Connected (d : dropOn W) : bool :=
  Streamed_Connected (wrapped d).

End Construction.

(** ** drop_on: the forwarding loop *)

(** A line of the log. *)
Inductive logline : Type :=
| Warnln (msg : string)
| Warnf (format : string) (arg : error).

(** - [Sent t]: the child received [t] from [transactionsOut];
    - [Result r]: the loop received [r] from [resChan];
    - [Tick]: the loop received from [ticker.C];
    - [Reclaim]: the goroutine that pulls the due response was started;
    - [Log l]: [l] was logged;
    - [Acked t r]: [r] was delivered on the channel of [t];
    - [CloseOut]: [close(d.transactionsOut)];
    - [ChildCloseAsync]: [d.wrapped.CloseAsync()];
    - [ChildAwaited timeout]: [d.wrapped.WaitForClose(timeout)] returned;
    - [Closed]: [close(d.closedChan)]. *)
Inductive event : Type :=
| Sent (t : Transaction)
| Result (r : err)
| Tick
| Reclaim
| Log (l : logline)
| Acked (t : Transaction) (r : err)
| CloseOut
| ChildCloseAsync
| ChildAwaited (timeout : Duration)
| Closed.

(** What the loop did, each event with its instant, the oldest first. *)
Definition trace := list (Time * event).

(** What the partners of the loop do during one iteration.  Every delay is
    counted from the instant the loop offers the communication.
    - [in_after], [in_val]: when a receive from [transactionsIn] can
      proceed, and what it yields ([None]: the channel is closed);
    - [accept_after]: when the child receives from [transactionsOut]
      ([None]: never);
    - [result_after], [result]: when, after accepting, the child sends on
      [resChan], and what;
    - [ack_after]: when the producer receives the acknowledgement;
    - [pick_in], [pick_send], [pick_wait], [pick_ack]: the random picks of
      the four [select]s. *)
Record ienv : Type := {
  in_after : Duration;
  in_val : option Transaction;
  accept_after : option Duration;
  result_after : option Duration;
  result : err;
  ack_after : option Duration;
  pick_in : nat;
  pick_send : nat;
  pick_wait : nat;
  pick_ack : nat
}.

(** How a piece of the loop ends: it goes on to the next statement with a
    value, the loop returns, or the goroutine blocks for ever. *)
Inductive outcome (A : Type) : Type :=
| Next (a : A)
| Quit
| Stuck.
Arguments Next {A} a.
Arguments Quit {A}.
Arguments Stuck {A}.

Inductive recv_case : Type :=
| RecvIn (v : option Transaction)
| RecvDone.

Inductive send_case : Type :=
| SendOK
| SendTick
| SendDone
| SendDefault.

Inductive wait_case : Type :=
| WaitRes (r : err)
| WaitTick
| WaitDone.

Inductive ack_case : Type :=
| AckTaken
| AckDone.

Definition after (now : Time) (d : option Duration) : option Time :=
  match d with
  | Some x => Some (now + x)
  | None => None
  end.

(** The state the loop carries from one statement to the next: the clock,
    the local variable [gotBackPressure], and what it did so far. *)
Record lstate : Type := {
  now : Time;
  gotBackPressure : bool;
  trail : trace
}.

Definition at_ (s : lstate) (t : Time) (g : bool) (evs : trace) : lstate :=
  {| now := t; gotBackPressure := g; trail := trail s ++ evs |}.

Section Loop.
Context {W : Type}.
Variable d : dropOn W.

(** [resChan], made once when the loop starts. *)
Variable resChan : chan.

(** The instant at which [d.done] is called, by [CloseAsync] ([None]:
    never). *)
Variable cancel : option Time.

(** [shutdown.MaximumShutdownWait()]. *)
Variable MaximumShutdownWait : Duration.

(** The first [select] of an iteration (lines 200-207). *)
Definition receive (e : ienv) (s : lstate) : lstate * outcome Transaction :=
  match select (now s)
               [ (Some (now s + in_after e), RecvIn (in_val e));
                 (cancel, RecvDone) ] (pick_in e) with
  | None => (s, Stuck)
  | Some (t, RecvIn (Some ts)) => (at_ s t (gotBackPressure s) [], Next ts)
  | Some (t, RecvIn None) => (at_ s t (gotBackPressure s) [], Quit)
  | Some (t, RecvDone) => (at_ s t (gotBackPressure s) [], Quit)
  end.

(** The closure of lines 211-254, run when [d.onBackpressure > 0], in its
    three parts.  [ticker] is the instant of the first tick of
    [time.NewTicker(d.onBackpressure)]: one period after it was made.  The
    loop receives from [ticker.C] at most once per ticker. *)

(** Lines 216-230: the transaction is offered to the child. *)
Definition offer (ticker : Time) (e : ienv) (ts : Transaction) (s : lstate)
  : lstate * outcome unit :=
  let out := NewTransaction (Payload ts) resChan in
  let accept := after (now s) (accept_after e) in
  if gotBackPressure s then
    match select_default (now s) [ (accept, SendOK) ] (pick_send e)
                         SendDefault with
    | SendOK => (at_ s (now s) false [ (now s, Sent out) ], Next tt)
    | _ => (s, Next tt)
    end
  else
    match select (now s)
                 [ (accept, SendOK);
                   (Some ticker, SendTick);
                   (cancel, SendDone) ] (pick_send e) with
    | None => (s, Stuck)
    | Some (t, SendOK) => (at_ s t false [ (t, Sent out) ], Next tt)
    | Some (t, SendTick) => (at_ s t true [ (t, Tick) ], Next tt)
    | Some (t, _) => (at_ s t false [], Quit)
    end.

(** Lines 231-244: the wait for the child's result; [res] is [nil] when
    it is not assigned. *)
Definition await (ticker : Time) (e : ienv) (s : lstate)
  : lstate * outcome err :=
  if negb (gotBackPressure s) then
    match select (now s)
                 [ (after (now s) (result_after e), WaitRes (result e));
                   (Some ticker, WaitTick);
                   (cancel, WaitDone) ] (pick_wait e) with
    | None => (s, Stuck)
    | Some (t, WaitRes r) => (at_ s t false [ (t, Result r) ], Next r)
    | Some (t, WaitTick) =>
        (at_ s t true [ (t, Tick); (t, Reclaim) ], Next None)
    | Some (t, WaitDone) => (at_ s t false [], Quit)
    end
  else (s, Next None).

(** Lines 245-252. *)
Definition dropped (res : err) (s : lstate) : lstate * err :=
  if gotBackPressure s then
    (at_ s (now s) true
         [ (now s, Log (Warnln "Message dropped due to back pressure.")) ],
     if onError d
     then None
     else Some (Errorf_d "experienced back pressure beyond: %v"
                         (onBackpressure d)))
  else (s, res).

(** [Quit] where the closure returns [false]. *)
Definition guarded (e : ienv) (ts : Transaction) (s : lstate)
  : lstate * outcome err :=
  let ticker := now s + onBackpressure d in
  match offer ticker e ts s with
  | (s1, Next _) =>
      match await ticker e s1 with
      | (s2, Next res) => let (s3, res') := dropped res s2 in (s3, Next res')
      | (s2, Quit) => (s2, Quit)
      | (s2, Stuck) => (s2, Stuck)
      end
  | (s1, Quit) => (s1, Quit)
  | (s1, Stuck) => (s1, Stuck)
  end.

(** The [else] branch, lines 257-270. *)
Definition plain (e : ienv) (ts : Transaction) (s : lstate)
  : lstate * outcome err :=
  let out := NewTransaction (Payload ts) resChan in
  match select (now s)
               [ (after (now s) (accept_after e), SendOK);
                 (cancel, SendDone) ] (pick_send e) with
  | None => (s, Stuck)
  | Some (t, SendOK) =>
      let s1 := at_ s t (gotBackPressure s) [ (t, Sent out) ] in
      match select t
                   [ (after t (result_after e), WaitRes (result e));
                     (cancel, WaitDone) ] (pick_wait e) with
      | None => (s1, Stuck)
      | Some (t', WaitRes r) =>
          (at_ s1 t' (gotBackPressure s) [ (t', Result r) ], Next r)
      | Some (t', _) => (at_ s1 t' (gotBackPressure s) [], Quit)
      end
  | Some (t, _) => (at_ s t (gotBackPressure s) [], Quit)
  end.

(** Lines 209-270. *)
Definition deliver (e : ienv) (ts : Transaction) (s : lstate)
  : lstate * outcome err :=
  if 0 <? onBackpressure d then guarded e ts s else plain e ts s.

(** Lines 272-275. *)
Definition absorb (res : err) (s : lstate) : lstate * err :=
  match res with
  | Some x =>
      if onError d
      then (at_ s (now s) (gotBackPressure s)
                [ (now s, Log (Warnf "Message dropped due to: %v\n" x)) ], None)
      else (s, res)
  | None => (s, res)
  end.

(** Modelled from the spec: [Transaction.Ack] of the package [message],
    which is not among the sources.  The spec's data model: "[Ack] accepts
    a cancellation context; if the context is cancelled before the
    acknowledgement is accepted by the original sender, [Ack] returns an
    error distinct from delivery failure".  So [Ack] selects between the
    send on the transaction's channel and [ctx.Done()]. *)
Definition Ack (e : ienv) (ts : Transaction) (res : err) (s : lstate)
  : lstate * outcome err :=
  match select (now s)
               [ (after (now s) (ack_after e), AckTaken);
                 (cancel, AckDone) ] (pick_ack e) with
  | None => (s, Stuck)
  | Some (t, AckTaken) =>
      (at_ s t (gotBackPressure s) [ (t, Acked ts res) ], Next None)
  | Some (t, AckDone) =>
      (at_ s t (gotBackPressure s) [], Next (ctx_Err cancel t))
  end.

(** One turn of the [for] loop: [Next tt] where the loop goes round again. *)
Definition iteration (e : ienv) (s : lstate) : lstate * outcome unit :=
  match receive e s with
  | (s1, Next ts) =>
      match deliver e ts s1 with
      | (s2, Next res) =>
          let (s3, res') := absorb res s2 in
          match Ack e ts res' s3 with
          | (s4, Next err_) =>
              if negb (is_nil err_) && negb (is_nil (ctx_Err cancel (now s4)))
              then (s4, Quit)
              else (s4, Next tt)
          | (s4, Quit) => (s4, Quit)
          | (s4, Stuck) => (s4, Stuck)
          end
      | (s2, Quit) => (s2, Quit)
      | (s2, Stuck) => (s2, Stuck)
      end
  | (s1, Quit) => (s1, Quit)
  | (s1, Stuck) => (s1, Stuck)
  end.

(** The [for] loop on the iterations that the environment describes; when
    they are used up nothing more arrives on [transactionsIn], and the
    first [select] can only proceed through [ctx.Done()].  [true]: the
    loop returned; [false]: its goroutine is blocked for ever. *)
Fixpoint rounds (envs : list ienv) (s : lstate) : lstate * bool :=
  match envs with
  | [] =>
      match select (now s)
                   [ (None, RecvIn None); (cancel, RecvDone) ] 0%nat with
      | Some (t, _) => (at_ s t (gotBackPressure s) [], true)
      | None => (s, false)
      end
  | e :: rest =>
      match iteration e s with
      | (s1, Next _) => rounds rest s1
      | (s1, Quit) => (s1, true)
      | (s1, Stuck) => (s1, false)
      end
  end.

(** Modelled from the spec: [WaitForClose] of the child, an
    [output.Streamed] whose implementation is not fixed by [dropOn].  The
    spec's contract: "blocks until shutdown completes or timeout elapses".
    [finish] is the delay after which the child has shut down ([None]:
    never); the result is the instant at which the call returns. *)
Definition child_WaitForClose (finish : option Duration) (timeout : Duration)
           (t : Time) : Time :=
  match select t [ (after t finish, tt); (Some (t + timeout), tt) ] 0%nat with
  | Some (t', _) => t'
  | None => t
  end.

(** The deferred function of [loop] (lines 187-192). *)
Definition deferred (finish : option Duration) (s : lstate) : lstate :=
  let t := now s in
  let t' := child_WaitForClose finish MaximumShutdownWait t in
  at_ s t' (gotBackPressure s)
      [ (t, CloseOut);
        (t, ChildCloseAsync);
        (t', ChildAwaited MaximumShutdownWait);
        (t', Closed) ].

(** [loop], started at [start]. *)
Definition loop (envs : list ienv) (finish : option Duration) (start : Time)
  : lstate * bool :=
  let s0 := {| now := start; gotBackPressure := false; trail := [] |} in
  match rounds envs s0 with
  | (s, true) => (deferred finish s, true)
  | (s, false) => (s, false)
  end.

(** The instant at which [closedChan] is closed, if it ever is. *)
Definition closed_at (r : lstate * bool) : option Time :=
  if snd r then Some (now (fst r)) else None.

(** [WaitForClose], called at [t] (lines 308-315); with its result, the
    instant at which it returns. *)
Definition WaitForClose (closed : option Time) (timeout : Duration)
           (t : Time) (pick : nat) : Time * err :=
  match select t [ (closed, None); (Some (t + timeout), Some ErrTimeout) ]
               pick with
  | Some r => r
  | None => (t, Some ErrTimeout)
  end.

End Loop.

(** The acknowledgements that a trace delivers, in order. *)
Definition acks (tr : trace) : list (Transaction * err) :=
  flat_map (fun x => match snd x with
                     | Acked t r => [(t, r)]
                     | _ => []
                     end) tr.

(** The events of the deferred function. *)
Definition closing (ev : event) : bool :=
  match ev with
  | CloseOut | ChildCloseAsync | ChildAwaited _ | Closed => true
  | _ => false
  end.

(** Events among which none is of the deferred function. *)
Definition calm (evs : trace) : bool :=
  forallb (fun x => negb (closing (snd x))) evs.

(** Events that neither acknowledge nor close. *)
Definition quiet (evs : trace) : bool :=
  forallb (fun x => match snd x with
                    | Acked _ _ => false
                    | ev => negb (closing ev)
                    end) evs.

(** [s'] is [s] after the events [evs]. *)
Definition extends (s s' : lstate) (evs : trace) : Prop :=
  trail s' = trail s ++ evs.

(** [s'] is [s] after events that neither acknowledge nor close. *)
Definition quietly (s s' : lstate) : Prop :=
  exists evs, extends s s' evs /\ quiet evs = true.

Definition all_nil (l : list (Transaction * err)) : Prop :=
  Forall (fun a => snd a = None) l.

End DropOn.


(** ** The websocket writer *)

Module Websocket.

(** A [*websocket.Conn] that is not [nil]. *)
Definition Conn := nat.

(** [websocket.BinaryMessage]. *)
Definition BinaryMessage : Z := 2.

Record WebsocketConfig : Type := {
  URL : string;
  TLS_Enabled : bool
}.

(** The struct [Websocket]; [lock] serialises the accesses to [client],
    which are atomic steps here. *)
Record Websocket (T : Type) : Type := {
  conf : WebsocketConfig;
  client : option Conn;
  tlsConf : option T
}.
Arguments conf {T} _.
Arguments client {T} _.
Arguments tlsConf {T} _.

Definition with_client {T : Type} (w : Websocket T) (c : option Conn)
  : Websocket T :=
  {| conf := conf w; client := c; tlsConf := tlsConf w |}.

(** What a call does besides changing the writer. *)
Inductive effect : Type :=
| Dialed (url : string)           (* a dialer's [Dial] was called *)
| go_reader (c : option Conn).    (* goroutine started that reads from [c] *)

Definition error_eq_dec (x y : error) : {x = y} + {x <> y}.
Proof.
  decide equality; first [ apply string_dec | apply Z.eq_dec ].
Defined.

Section Writer.
(** [*tls.Config], [*url.URL] and [http.Header]. *)
Context {T U H : Type}.

(** [url.Parse]. *)
Variable url_Parse : string -> U * err.

(** [http.Header{}]. *)
Variable no_headers : H.

(** [auth.Config.Sign], on the request made of a URL and headers. *)
Variable Sign : WebsocketConfig -> U -> H -> err.

(** [Dial] of the dialer with the given [TLSClientConfig], or of
    [websocket.DefaultDialer] when there is none: the connection and the
    error it returns. *)
Variable Dial : option (option T) -> string -> H -> option Conn * err.

(** [Conn.WriteMessage]. *)
Variable WriteMessage : Conn -> Z -> string -> err.

(** [message.Batch.Iter]. *)
Variable Iter : Batch -> (nat -> string -> err) -> err.

Definition getWS (w : Websocket T) : option Conn := client w.

Definition ConnectWithContext (w : Websocket T)
  : Websocket T * err * list effect :=
  match client w with
  | Some _ => (w, None, [])
  | None =>
      let headers := no_headers in
      let (purl, e) := url_Parse (URL (conf w)) in
      match e with
      | Some _ => (w, e, [])
      | None =>
          match Sign (conf w) purl headers with
          | Some e1 => (w, Some e1, [])
          | None =>
              let (c, e2) :=
                if TLS_Enabled (conf w)
                then Dial (Some (tlsConf w)) (URL (conf w)) headers
                else Dial None (URL (conf w)) headers in
              match e2 with
              | Some _ => (w, e2, [Dialed (URL (conf w))])
              | None =>
                  (with_client w c, None,
                   [Dialed (URL (conf w)); go_reader c])
              end
          end
      end
  end.

Definition WriteWithContext (w : Websocket T) (msg : Batch)
  : Websocket T * err :=
  match getWS w with
  | None => (w, Some ErrNotConnected)
  | Some c =>
      match Iter msg (fun _ p => WriteMessage c BinaryMessage p) with
      | Some e =>
          (with_client w None,
           if error_eq_dec e ErrCloseSent
           then Some ErrNotConnected
           else Some e)
      | None => (w, None)
      end
  end.

End Writer.

(** A [Batch.Iter] to run the writer with: the parts in order, up to the
    first error. *)
Fixpoint Iter_from (i : nat) (parts : Batch) (f : nat -> string -> err)
  : err :=
  match parts with
  | [] => None
  | p :: rest =>
      match f i p with
      | Some e => Some e
      | None => Iter_from (S i) rest f
      end
  end.

End Websocket.

(** ** The cache writer *)

Module CacheWriter.

Record CacheConfig : Type := {
  Target : string;
  Key : string;
  TTL : string;
  MaxInFlight : Z
}.

(** The methods of [interop.Manager] that [NewCache] calls, for
    expressions of type [E]: [BloblEnvironment().NewField] and
    [ProbeCache]. *)
Record Manager (E : Type) : Type := {
  NewField : string -> option E * err;
  ProbeCache : string -> bool
}.
Arguments NewField {E} _ _.
Arguments ProbeCache {E} _ _.

(** The struct [Cache], without [log] and [stats]. *)
Record Cache (E : Type) : Type := {
  conf : CacheConfig;
  mgr : Manager E;
  key : option E;
  ttl : option E
}.

Definition NewCache {E : Type} (conf : CacheConfig) (mgr : Manager E)
  : option (Cache E) * err :=
  let (key, e) := NewField mgr (Key conf) in
  match e with
  | Some x => (None, Some (Errorf_e "failed to parse key expression: %v" x))
  | None =>
      let (ttl, e1) := NewField mgr (TTL conf) in
      match e1 with
      | Some x =>
          (None, Some (Errorf_e "failed to parse ttl expression: %v" x))
      | None =>
          if negb (ProbeCache mgr (Target conf))
          then (None,
                Some (Errorf_s "cache resource '%v' was not found"
                               (Target conf)))
          else (Some {| conf := conf; mgr := mgr; key := key; ttl := ttl |},
                None)
      end
  end.

End CacheWriter.


(** ** Go's [time.ParseDuration]

    The constructor [newDropOn] takes the parser as a parameter.  This is
    the algorithm of Go's standard library, to run the constructor on
    concrete configurations.  Unsigned 64-bit arithmetic is written out;
    the fraction of a term, which Go computes through [float64], is
    computed exactly. *)

Module GoTime.

Import Ascii.

Definition two63 : Z := 2 ^ 63.
Definition wrap64 (x : Z) : Z := x mod 2 ^ 64.

Definition is_digit (c : ascii) : bool :=
  (48 <=? Z.of_nat (nat_of_ascii c)) && (Z.of_nat (nat_of_ascii c) <=? 57).

Definition is_dot (c : ascii) : bool :=
  Z.of_nat (nat_of_ascii c) =? 46.

Definition digit (c : ascii) : Z := Z.of_nat (nat_of_ascii c) - 48.

Definition invalid : error := Foreign "time: invalid duration".
Definition missing_unit : error := Foreign "time: missing unit in duration".
Definition unknown_unit : error := Foreign "time: unknown unit in duration".

(** [leadingInt]: the leading digits of [s] as a number, and the rest;
    [None] is [errLeadingInt]. *)
Fixpoint leadingInt (x : Z) (s : string) : option (Z * string) :=
  match s with
  | String c r =>
      if is_digit c then
        if two63 / 10 <? x then None
        else
          let x' := wrap64 (x * 10 + digit c) in
          if two63 <? x' then None else leadingInt x' r
      else Some (x, s)
  | EmptyString => Some (x, s)
  end.

(** [leadingFraction]: the digits after the point as a number and its
    scale, and the rest. *)
Fixpoint leadingFraction (x scale : Z) (overflow : bool) (s : string)
  : Z * Z * string :=
  match s with
  | String c r =>
      if is_digit c then
        if overflow then leadingFraction x scale true r
        else if (two63 - 1) / 10 <? x then leadingFraction x scale true r
        else
          let y := wrap64 (x * 10 + digit c) in
          if two63 <? y then leadingFraction x scale true r
          else leadingFraction y (scale * 10) false r
      else (x, scale, s)
  | EmptyString => (x, scale, s)
  end.

(** The unit of a term: the characters up to the next point or digit. *)
Fixpoint unit_split (s : string) : string * string :=
  match s with
  | String c r =>
      if is_dot c || is_digit c then (EmptyString, s)
      else let (u, rest) := unit_split r in (String c u, rest)
  | EmptyString => (EmptyString, EmptyString)
  end.

Definition micro1 : string :=
  String (ascii_of_nat 194) (String (ascii_of_nat 181) "s").
Definition micro2 : string :=
  String (ascii_of_nat 206) (String (ascii_of_nat 188) "s").

Definition unitMap (u : string) : option Z :=
  if string_dec u "ns" then Some 1
  else if string_dec u "us" then Some 1000
  else if string_dec u micro1 then Some 1000
  else if string_dec u micro2 then Some 1000
  else if string_dec u "ms" then Some 1000000
  else if string_dec u "s" then Some 1000000000
  else if string_dec u "m" then Some 60000000000
  else if string_dec u "h" then Some 3600000000000
  else None.

(** The loop [for s != ""] over the terms; every turn consumes a unit, so
    [String.length s] turns are enough. *)
Fixpoint terms (fuel : nat) (d : Z) (s : string) : Z * err :=
  match s, fuel with
  | EmptyString, _ => (d, None)
  | String _ _, O => (0, Some invalid)
  | String c _, S fuel' =>
      if negb (is_dot c || is_digit c) then (0, Some invalid)
      else
        match leadingInt 0 s with
        | None => (0, Some invalid)
        | Some (v, s1) =>
            let pre := negb (String.length s =? String.length s1)%nat in
            let '(f, scale, s2, post) :=
              match s1 with
              | String p r =>
                  if is_dot p then
                    let '(f, scale, s2) := leadingFraction 0 1 false r in
                    (f, scale, s2,
                     negb (String.length r =? String.length s2)%nat)
                  else (0, 1, s1, false)
              | EmptyString => (0, 1, s1, false)
              end in
            if negb pre && negb post then (0, Some invalid)
            else
              let (u, s3) := unit_split s2 in
              if string_dec u EmptyString then (0, Some missing_unit)
              else
                match unitMap u with
                | None => (0, Some unknown_unit)
                | Some unit =>
                    if two63 / unit <? v then (0, Some invalid)
                    else
                      let v1 := wrap64 (v * unit) in
                      let v2 :=
                        if 0 <? f
                        then wrap64 (v1 + f * unit / scale)
                        else v1 in
                      if (0 <? f) && (two63 <? v2) then (0, Some invalid)
                      else
                        let d' := wrap64 (d + v2) in
                        if two63 <? d' then (0, Some invalid)
                        else terms fuel' d' s3
                end
        end
  end.

Definition ParseDuration (s : string) : Duration * err :=
  let (neg, s1) :=
    match s with
    | String c r =>
        if Ascii.eqb c "-" then (true, r)
        else if Ascii.eqb c "+" then (false, r)
        else (false, s)
    | EmptyString => (false, s)
    end in
  if string_dec s1 "0" then (0, None)
  else if string_dec s1 EmptyString then (0, Some invalid)
  else
    match terms (String.length s1) 0 s1 with
    | (_, Some e) => (0, Some e)
    | (d, None) =>
        if neg then (- d, None)
        else if two63 - 1 <? d then (0, Some invalid)
        else (d, None)
    end.

End GoTime.


(** ** Concrete configurations, partners and schedules *)

Module Scenario.

Import DropOn.

(** A child that can be bound once. *)
#[export] Instance bound_once : Streamed (option chan) := {
  Streamed_Consume w c :=
    match w with
    | Some _ => (w, Some ErrAlreadyStarted)
    | None => (Some c, None)
    end;
  Streamed_Connected w := true
}.

Definition decorator (error : bool) (back_pressure : Duration)
  : dropOn (option chan) :=
  {| onError := error;
     onBackpressure := back_pressure;
     wrapped := Some 0%nat;
     transactionsIn := Some 5%nat;
     transactionsOut := 0%nat;
     closedChan := 1%nat |}.

(** A decorator as [newDropOn] makes it, and its child before it is
    bound. *)
Definition unbound : dropOn (option chan) :=
  {| onError := false;
     onBackpressure := 0;
     wrapped := None;
     transactionsIn := None;
     transactionsOut := 0%nat;
     closedChan := 1%nat |}.

(** A child that lets itself be bound again: it keeps every channel that
    it was given, the last one first. *)
#[export] Instance rebinding : Streamed (list chan) := {
  Streamed_Consume w c := (c :: w, None);
  Streamed_Connected w := true
}.

(** A decorator as [newDropOn] makes it around such a child. *)
Definition fresh : dropOn (list chan) :=
  {| onError := false;
     onBackpressure := 0;
     wrapped := [];
     transactionsIn := None;
     transactionsOut := 0%nat;
     closedChan := 1%nat |}.

Definition ts0 : Transaction := NewTransaction ["a"%string] 7%nat.

(** The loop's [resChan]. *)
Definition rc : chan := 9%nat.

Definition idle : lstate :=
  {| now := 0; gotBackPressure := false; trail := [] |}.

Definition stalled : lstate :=
  {| now := 100; gotBackPressure := true; trail := [] |}.

(** [ts0] arrives after 5ns; the child accepts after [a] and answers [res]
    after [r]; the producer takes the acknowledgement after 1ns. *)
Definition env (a r : option Duration) (res : err) : ienv :=
  {| in_after := 5;
     in_val := Some ts0;
     accept_after := a;
     result_after := r;
     result := res;
     ack_after := Some 1;
     pick_in := 0;
     pick_send := 0;
     pick_wait := 0;
     pick_ack := 0 |}.

Definition rejected : error := Foreign "rejected".

(** A websocket writer whose connection 1 fails on the part ["bad"]; a
    dial yields connection 2. *)
Definition ws_config : Websocket.WebsocketConfig :=
  {| Websocket.URL := "ws://example.com/foo/messages";
     Websocket.TLS_Enabled := false |}.

Definition ws_connected : Websocket.Websocket unit :=
  {| Websocket.conf := ws_config;
     Websocket.client := Some 1%nat;
     Websocket.tlsConf := None |}.

Definition ws_parse (u : string) : string * err := (u, None).

Definition ws_sign (c : Websocket.WebsocketConfig) (u : string) (h : unit)
  : err := None.

Definition ws_dial (t : option (option unit)) (u : string) (h : unit)
  : option Websocket.Conn * err := (Some 2%nat, None).

Definition ws_write (c : Websocket.Conn) (kind : Z) (p : string) : err :=
  if string_dec p "bad" then Some (Foreign "broken pipe") else None.

(** A manager whose field parser refuses the expressions that open an
    interpolation without closing it. *)
Definition unclosed : string := "${!count(".

Definition mgr0 : CacheWriter.Manager string :=
  {| CacheWriter.NewField s :=
       if string_dec s unclosed
       then (None, Some (Foreign "expected closing bracket"))
       else (Some s, None);
     CacheWriter.ProbeCache t := true |}.

Definition cache_conf (key ttl : string) : CacheWriter.CacheConfig :=
  {| CacheWriter.Target := "foo";
     CacheWriter.Key := key;
     CacheWriter.TTL := ttl;
     CacheWriter.MaxInFlight := 64 |}.

End Scenario.


(** ** drop_on: the registered constructor, and readings of a run *)

Module DropOnMore.

Import DropOn.

(** [DropOnConfig]: the conditions and the configuration of the child,
    [nil] by default. *)
Record DropOnConfig (C : Type) : Type := {
  Conditions : DropOnConditions;
  Output : option C
}.
Arguments Conditions {C} _.
Arguments Output {C} _.

Definition NewDropOnConfig {C : Type} : DropOnConfig C :=
  {| Conditions := {| Error := false; BackPressure := "" |};
     Output := None |}.

Section Registered.
Context {C W : Type}.

(** [New] of the package [output], which builds the child. *)
Variable New : C -> W * err.

Variable ParseDuration : string -> Duration * err.

(** The constructor registered for [TypeDropOn] in [init] (lines 24-33). *)
Definition constructor (conf : DropOnConfig C) (mk : chan)
  : option (dropOn W) * err :=
  match Output conf with
  | None =>
      (None, Some (Foreign "cannot create a drop_on output without a child"))
  | Some out =>
      let (wrapped, e) := New out in
      match e with
      | Some _ => (None, e)
      | None => newDropOn ParseDuration (Conditions conf) wrapped mk
      end
  end.

End Registered.

(** The transactions that arrive on [transactionsIn], in order. *)
Definition arrivals (envs : list ienv) : list Transaction :=
  flat_map (fun e => match in_val e with
                     | Some ts => [ts]
                     | None => []
                     end) envs.

(** The transactions that the child received, in order. *)
Definition sents (tr : trace) : list Transaction :=
  flat_map (fun x => match snd x with
                     | Sent t => [t]
                     | _ => []
                     end) tr.

(** The results that the loop received from the child, in order. *)
Definition results (tr : trace) : list err :=
  flat_map (fun x => match snd x with
                     | Result r => [r]
                     | _ => []
                     end) tr.

(** The events of a trace without their instants. *)
Definition kinds (tr : trace) : list event := map snd tr.

(** [l1] is [l2] with some elements left out. *)
Inductive subseq {A : Type} : list A -> list A -> Prop :=
| subseq_nil : subseq [] []
| subseq_skip l1 l2 x : subseq l1 l2 -> subseq l1 (x :: l2)
| subseq_keep l1 l2 x : subseq l1 l2 -> subseq (x :: l1) (x :: l2).

(** What a transaction that is dropped for back pressure is acknowledged
    with (lines 247-251). *)
Definition drop_result {W : Type} (d : dropOn W) : err :=
  if onError d
  then None
  else Some (Errorf_d "experienced back pressure beyond: %v"
                      (onBackpressure d)).

Definition drop_warning : event :=
  Log (Warnln "Message dropped due to back pressure.").

(** What the delivery of a transaction (lines 209-270) can do, [out] being
    the transaction made for the child: stop the loop or block, after at
    most the send; or send and receive the result; or, with back pressure
    timed, drop the message. *)
Definition delivery {W : Type} (d : dropOn W) (out : Transaction)
           (o : outcome err) (sticky : bool) (ks : list event) : Prop :=
  ((forall r, o <> Next r) /\ (ks = [] \/ ks = [Sent out])) \/
  (exists r, o = Next r /\ ks = [Sent out; Result r]) \/
  (o = Next (drop_result d) /\ sticky = true /\ 0 < onBackpressure d /\
   (ks = [Sent out; Tick; Reclaim; drop_warning] \/
    ks = [Tick; drop_warning] \/
    ks = [drop_warning])).

(** What lines 272-275 log for a result, and what they make of it. *)
Definition absorbed {W : Type} (d : dropOn W) (res : err) : list event :=
  match res with
  | Some x =>
      if onError d then [Log (Warnf "Message dropped due to: %v\n" x)] else []
  | None => []
  end.

Definition verdict {W : Type} (d : dropOn W) (res : err) : err :=
  match res with
  | Some _ => if onError d then None else res
  | None => None
  end.

(** What an iteration that received [ts] can do: a delivery, and when the
    delivery has a result, the log of lines 272-275 and the
    acknowledgement, after which the loop goes round again; without the
    acknowledgement the loop does not go on. *)
Definition turn {W : Type} (d : dropOn W) (resChan : chan)
           (ts : Transaction) (o : outcome unit) (ks : list event) : Prop :=
  exists o2 sticky dk,
    delivery d (NewTransaction (Payload ts) resChan) o2 sticky dk /\
    (((forall r, o2 <> Next r) /\ ks = dk /\ o <> Next tt) \/
     (exists res,
        o2 = Next res /\
        ((ks = dk ++ absorbed d res ++ [Acked ts (verdict d res)] /\
          o = Next tt) \/
         (ks = dk ++ absorbed d res /\ o <> Next tt)))).

(** What the iterations of a run do, one after the other, the last one
    being the first that does not go round again. *)
Inductive run {W : Type} (d : dropOn W) (resChan : chan)
  : list ienv -> list event -> Prop :=
| run_out : run d resChan [] []
| run_closed e rest : run d resChan (e :: rest) []
| run_last e rest ts o ks :
    in_val e = Some ts -> turn d resChan ts o ks -> o <> Next tt ->
    run d resChan (e :: rest) ks
| run_on e rest ts ks ks' :
    in_val e = Some ts -> turn d resChan ts (Next tt) ks ->
    run d resChan rest ks' ->
    run d resChan (e :: rest) (ks ++ ks').

(** Events at the instant 0, for the readings that do not depend on the
    instants. *)
Definition untimed (ks : list event) : trace := map (pair 0) ks.

(** The events of a loop that only forwards: no tick, no goroutine, no
    line in the log. *)
Definition forwards_only (ev : event) : bool :=
  match ev with
  | Tick | Reclaim | Log _ => false
  | _ => true
  end.

(** The goroutines started to pull a response in place of the loop. *)
Definition reclaims (tr : trace) : nat :=
  List.length (List.filter (fun x => match snd x with
                                     | Reclaim => true
                                     | _ => false
                                     end) tr).

(** The time that the arrival and the acknowledgement of a transaction
    take. *)
Definition idle_time (e : ienv) : Duration :=
  in_after e + match ack_after e with
               | Some k => k
               | None => 0
               end.

(** A transaction arrives, the child cannot receive it at once, and the
    producer takes the acknowledgement. *)
Definition refused (e : ienv) : Prop :=
  in_val e <> None /\ 0 <= in_after e /\ later (accept_after e) 0 /\
  exists k, ack_after e = Some k /\ 0 <= k.

(** What the loop does with the transactions that a stalled child
    refuses. *)
Definition refusals {W : Type} (d : dropOn W) (envs : list ienv)
  : list event :=
  flat_map (fun e => match in_val e with
                     | Some ts => [drop_warning; Acked ts (drop_result d)]
                     | None => []
                     end) envs.

End DropOnMore.

(** ** The websocket writer: construction and shutdown *)

Module WebsocketMore.

Import Websocket.

Section Lifecycle.
Context {T : Type}.

(** [conf.TLS.Get]. *)
Variable TLS_Get : WebsocketConfig -> option T * err.

Definition NewWebsocket (conf : WebsocketConfig)
  : option (Websocket T) * err :=
  if TLS_Enabled conf then
    let (t, e) := TLS_Get conf in
    match e with
    | Some _ => (None, e)
    | None => (Some {| conf := conf; client := None; tlsConf := t |}, None)
    end
  else (Some {| conf := conf; client := None; tlsConf := None |}, None).

(** The goroutine that [CloseAsync] starts: the writer as it leaves it,
    and the connections it called [Close] on. *)
Definition CloseAsync (w : Websocket T) : Websocket T * list Conn :=
  match client w with
  | Some c => (with_client w None, [c])
  | None => (w, [])
  end.

Definition WaitForClose (w : Websocket T) (timeout : Duration) : err := None.

End Lifecycle.

End WebsocketMore.

(** ** The cache writer: writes *)

Module CacheWrites.

(** [cache.TTLItem]. *)
Record TTLItem : Type := {
  Value : string;
  TTL : option Duration
}.

(** A [map[string]cache.TTLItem]: one entry per key. *)
Definition items := list (string * TTLItem).

Fixpoint lookup (k : string) (m : items) : option TTLItem :=
  match m with
  | [] => None
  | (k', v) :: r => if string_dec k k' then Some v else lookup k r
  end.

Fixpoint remove (k : string) (m : items) : items :=
  match m with
  | [] => []
  | (k', v) :: r =>
      if string_dec k k' then remove k r else (k', v) :: remove k r
  end.

(** [m[k] = v]. *)
Definition insert (k : string) (v : TTLItem) (m : items) : items :=
  (k, v) :: remove k m.

(** The calls that a write makes on the cache. *)
Inductive call : Type :=
| Set_ (key value : string) (ttl : option Duration)
| SetMulti (m : items).

(** A [cache.V1]: what its [Set] and its [SetMulti] return. *)
Record V1 : Type := {
  Set_result : string -> string -> option Duration -> err;
  SetMulti_result : items -> err
}.

Section Writes.

(** [c.conf.Target], [c.key.String] and [c.ttl.String]. *)
Variable target : string.
Variable key_String : nat -> Batch -> string.
Variable ttl_String : nat -> Batch -> string.

Variable ParseDuration : string -> Duration * err.

(** [c.mgr.AccessCache] for a target: the cache that it runs the function
    on ([None]: it does not run it), and the error that it returns. *)
Variable AccessCache : string -> option V1 * err.

(** The TTL of the part [i]: the pointer [ttl] and the error of the
    callback (lines 230-238 and 261-270). *)
Definition part_ttl (i : nat) (msg : Batch) : option Duration * err :=
  let ttls := ttl_String i msg in
  if string_dec ttls EmptyString then (None, None)
  else
    match ParseDuration ttls with
    | (_, Some terr) => (None, Some (Errorf_e "ttl field: %w" terr))
    | (t, None) => (Some t, None)
    end.

(** [msg.Iter] with the callback of [writeMulti] (lines 229-244) on the
    parts from the index [i] on: [message.Batch.Iter], which is not among
    the sources, calls it on the parts in order, up to the first error. *)
Fixpoint collect (i : nat) (parts : list string) (msg : Batch) (m : items)
  : items * err :=
  match parts with
  | [] => (m, None)
  | p :: rest =>
      match part_ttl i msg with
      | (_, Some e) => (m, Some e)
      | (ttl, None) =>
          collect (S i) rest msg
                  (insert (key_String i msg) {| Value := p; TTL := ttl |} m)
      end
  end.

Definition writeMulti (msg : Batch) : err * list call :=
  let (ac, cerr) := AccessCache target in
  let (e, calls) :=
    match ac with
    | None => (None, [])
    | Some cache =>
        match collect 0 msg msg [] with
        | (_, Some e) => (Some e, [])
        | (m, None) => (SetMulti_result cache m, [SetMulti m])
        end
    end in
  (match cerr with
   | Some _ => cerr
   | None => e
   end, calls).

(** [msg.Get(0).Get()]: the first part, and no bytes when there is
    none. *)
Definition first_part (msg : Batch) : string := hd EmptyString msg.

Definition WriteWithContext (msg : Batch) : err * list call :=
  if (1 <? List.length msg)%nat then writeMulti msg
  else
    let (ac, cerr) := AccessCache target in
    let (e, calls) :=
      match ac with
      | None => (None, [])
      | Some cache =>
          match part_ttl 0 msg with
          | (_, Some e) => (Some e, [])
          | (ttl, None) =>
              (Set_result cache (key_String 0 msg) (first_part msg) ttl,
               [Set_ (key_String 0 msg) (first_part msg) ttl])
          end
      end in
    (match cerr with
     | Some _ => cerr
     | None => e
     end, calls).


End Writes.

End CacheWrites.


(** ** More concrete partners *)

Module Cases.

Import DropOn.

(** The producer closes the input channel after 5ns. *)
Definition closed_input : ienv :=
  {| in_after := 5;
     in_val := None;
     accept_after := None;
     result_after := None;
     result := None;
     ack_after := None;
     pick_in := 0;
     pick_send := 0;
     pick_wait := 0;
     pick_ack := 0 |}.

(** A configuration of [drop_on] whose child is the output [name], and a
    [New] that knows the output ["stdout"] only. *)
Definition drop_conf (name : string) : DropOnMore.DropOnConfig string :=
  {| DropOnMore.Conditions := {| Error := true; BackPressure := "10ms" |};
     DropOnMore.Output := Some name |}.

Definition new_output (name : string) : option chan * err :=
  if string_dec name "stdout" then (None, None)
  else (None, Some (Foreign "invalid output type")).

(** A cache that takes every item. *)
Definition cache_ok : CacheWrites.V1 :=
  {| CacheWrites.Set_result k v t := None;
     CacheWrites.SetMulti_result m := None |}.

Definition access (target : string) : option CacheWrites.V1 * err :=
  (Some cache_ok, None).

Definition unavailable : error := Foreign "cache unavailable".

Definition access_failing (target : string) : option CacheWrites.V1 * err :=
  (Some cache_ok, Some unavailable).

(** The fields [${!content()}], and a field without interpolation. *)
Definition content (i : nat) (msg : Batch) : string := nth i msg EmptyString.

Definition static (s : string) (i : nat) (msg : Batch) : string := s.

End Cases.


(** * Properties *)

(** ** Facts about [select] *)

Section SelectFacts.
Context {A : Type}.
Implicit Types cs : list (@scase A).

Lemma earliest_lower now cs m :
  earliest now cs = Some m ->
  forall t a, In (Some t, a) cs -> m <= due now t.
Proof.
  revert m; induction cs as [|[[u|] b] r IH]; simpl; intros m E t a I.
  - contradiction.
  - destruct (earliest now r) as [m'|] eqn:Er.
    + injection E as <-. destruct I as [I|I].
      * injection I as -> _. lia.
      * specialize (IH m' eq_refl t a I). lia.
    + injection E as <-. destruct I as [I|I].
      * injection I as -> _. lia.
      * clear IH. exfalso. revert I. clear -Er.
        induction r as [|[[v|] c] r IH]; simpl in *; intros I.
        -- contradiction.
        -- destruct (earliest now r); discriminate.
        -- destruct I as [I|I]; [discriminate | auto].
  - destruct I as [I|I]; [discriminate | eauto].
Qed.

Lemma earliest_never now cs :
  earliest now cs = None -> forall t a, ~ In (Some t, a) cs.
Proof.
  induction cs as [|[[u|] b] r IH]; simpl; intros E t a I.
  - contradiction.
  - destruct (earliest now r); discriminate.
  - destruct I as [I|I]; [discriminate | eapply IH; eauto].
Qed.

Lemma earliest_fires now cs m :
  earliest now cs = Some m -> filter (fires now m) cs <> [].
Proof.
  revert m; induction cs as [|[[u|] b] r IH]; intros m E.
  - discriminate.
  - simpl in E. cbn [filter]. unfold fires at 1. cbn [fst].
    destruct (Z.eqb_spec (due now u) m) as [_|N]; [discriminate|].
    destruct (earliest now r) as [m'|] eqn:Er.
    + injection E as E. apply IH. f_equal. lia.
    + injection E as E. contradiction.
  - simpl in E. cbn [filter]. unfold fires at 1. cbn [fst]. auto.
Qed.

Lemma none_before_intro now m cs :
  (forall t a, In (Some t, a) cs -> m <= due now t) -> none_before now m cs.
Proof.
  induction cs as [|[[u|] b] r IH]; simpl; intros L.
  - exact I.
  - split; [eapply L; eauto | apply IH; eauto].
  - apply IH; eauto.
Qed.

Lemma select_sound now cs pick m a :
  select now cs pick = Some (m, a) ->
  (exists t, In (Some t, a) cs /\ m = due now t) /\ none_before now m cs.
Proof.
  unfold select. destruct (earliest now cs) as [m'|] eqn:E; [|discriminate].
  destruct (nth_error _ _) as [[o b]|] eqn:N; [|discriminate].
  intros [= <- <-]. split.
  - apply nth_error_In, filter_In in N. destruct N as [I F].
    unfold fires in F; simpl in F. destruct o as [t|]; [|discriminate].
    exists t. apply Z.eqb_eq in F. auto.
  - apply none_before_intro. eauto using earliest_lower.
Qed.

Lemma select_blocked now cs pick :
  select now cs pick = None -> forall t a, ~ In (Some t, a) cs.
Proof.
  unfold select. destruct (earliest now cs) as [m|] eqn:E.
  - destruct (nth_error _ _) as [c|] eqn:N; [discriminate|].
    intros _. exfalso. apply nth_error_None in N.
    pose proof (earliest_fires _ _ _ E) as F.
    destruct (filter (fires now m) cs) as [|x l]; [congruence|].
    pose proof (Nat.mod_upper_bound pick (List.length (x :: l))) as B.
    simpl in *. lia.
  - intros _. eauto using earliest_never.
Qed.

Lemma select_default_one now (o : option Time) (a dflt : A) pick :
  select_default now [ (o, a) ] pick dflt =
  match o with
  | Some t => if t <=? now then a else dflt
  | None => dflt
  end.
Proof.
  unfold select_default, immediate; cbn [filter fst].
  destruct o as [t|]; [|destruct pick; reflexivity].
  destruct (t <=? now); [|destruct pick; reflexivity].
  cbn [List.length]. rewrite Nat.mod_1_r. reflexivity.
Qed.

Lemma earliest_witness now cs m :
  earliest now cs = Some m -> exists u b, In (Some u, b) cs /\ due now u = m.
Proof.
  revert m; induction cs as [|[[u|] b] r IH]; simpl; intros m E.
  - discriminate.
  - destruct (earliest now r) as [m'|] eqn:Er.
    + injection E as <-.
      destruct (Z.le_ge_cases (due now u) m') as [C|C].
      * exists u, b. split; [auto | lia].
      * destruct (IH m' eq_refl) as [v [c [J K]]].
        exists v, c. split; [auto | lia].
    + injection E as <-. exists u, b. auto.
  - destruct (IH m E) as [v [c [J K]]]. exists v, c. auto.
Qed.

Lemma none_before_elim now x cs :
  none_before now x cs ->
  forall u b, In (Some u, b) cs -> x <= due now u.
Proof.
  induction cs as [|[[v|] c] r IH]; simpl; intros L u b J.
  - contradiction.
  - destruct J as [J|J]; [injection J as -> _; tauto | apply IH with b; tauto].
  - destruct J as [J|J]; [discriminate | eauto].
Qed.

(** Every case that can proceed first can be the one taken. *)
Lemma select_any now cs t a :
  In (Some t, a) cs -> none_before now (due now t) cs ->
  exists pick, select now cs pick = Some (due now t, a).
Proof.
  intros I L. unfold select.
  destruct (earliest now cs) as [m|] eqn:E.
  - assert (M : m = due now t).
    { pose proof (earliest_lower _ _ _ E _ _ I) as U.
      destruct (earliest_witness _ _ _ E) as [u [b [J K]]].
      pose proof (none_before_elim _ _ _ L _ _ J). lia. }
    subst m.
    assert (J : In (Some t, a) (filter (fires now (due now t)) cs)).
    { apply filter_In. split; [exact I|]. unfold fires; simpl.
      apply Z.eqb_refl. }
    apply In_nth_error in J. destruct J as [n J]. exists n.
    assert (B : (n < List.length (filter (fires now (due now t)) cs))%nat)
      by (apply (proj1 (nth_error_Some _ _)); intros N;
          discriminate (eq_trans (eq_sym N) J)).
    rewrite Nat.mod_small by exact B.
    exact (f_equal (fun r : option (option Time * A) =>
                      match r with
                      | Some c => Some (due now t, snd c)
                      | None => None
                      end) J).
  - exfalso. eapply earliest_never; eauto.
Qed.

End SelectFacts.
(** ** The forwarding loop *)

Import DropOn.

Ltac break_select :=
  match goal with
  | |- context [select_default ?n ?cs ?p ?d] =>
      rewrite (select_default_one n _ _ d p)
  | |- context [select ?n ?cs ?p] =>
      let S := fresh "S" in
      destruct (select n cs p) as [[? []]|] eqn:S
  end.

Ltac break_if :=
  match goal with
  | |- context [if ?b then _ else _] => destruct b eqn:?
  | |- context [match ?x with _ => _ end] => destruct x eqn:?
  end.

Ltac run_loop :=
  repeat (cbn -[select select_default Z.add];
          first [break_select | break_if]).

Ltac chosen S :=
  apply select_sound in S;
  let I := fresh "I" in let L := fresh "L" in
  destruct S as [[? [I ?]] L]; simpl in I, L;
  repeat (destruct I as [I|I]; [try discriminate I|]); try contradiction.

Ltac timed S :=
  chosen S;
  match goal with
  | I : (_, _) = (_, _) |- _ => inversion I; subst; clear I
  end;
  unfold due in *.


Lemma extends_refl s : extends s s [].
Proof. unfold extends. symmetry. apply app_nil_r. Qed.

Lemma extends_at s t g evs : extends s (at_ s t g evs) evs.
Proof. reflexivity. Qed.

Lemma extends_trans s1 s2 s3 e1 e2 :
  extends s1 s2 e1 -> extends s2 s3 e2 -> extends s1 s3 (e1 ++ e2).
Proof. unfold extends. intros -> ->. symmetry. apply app_assoc. Qed.

Lemma quiet_app e1 e2 :
  quiet e1 = true -> quiet e2 = true -> quiet (e1 ++ e2) = true.
Proof.
  unfold quiet. intros. rewrite forallb_app. apply andb_true_intro; auto.
Qed.

Lemma quiet_acks evs : quiet evs = true -> acks evs = [].
Proof.
  induction evs as [|[t ev] r IH]; simpl; intros Q; [reflexivity|].
  apply andb_prop in Q. destruct Q as [Q1 Q2]. rewrite (IH Q2).
  destruct ev; try discriminate; reflexivity.
Qed.

Lemma quiet_calm evs : quiet evs = true -> calm evs = true.
Proof.
  induction evs as [|[t ev] r IH]; simpl; intros Q; [reflexivity|].
  apply andb_prop in Q. destruct Q as [Q1 Q2]. rewrite (IH Q2).
  destruct ev; try discriminate; reflexivity.
Qed.

Lemma calm_app e1 e2 :
  calm e1 = true -> calm e2 = true -> calm (e1 ++ e2) = true.
Proof.
  unfold calm. intros. rewrite forallb_app. apply andb_true_intro; auto.
Qed.

Lemma acks_app e1 e2 : acks (e1 ++ e2) = acks e1 ++ acks e2.
Proof. apply flat_map_app. Qed.


Create HintDb loop.
#[local] Hint Resolve extends_refl extends_at quiet_app quiet_calm calm_app
  : loop.

Ltac shape :=
  intros E; inversion E; subst; clear E; unfold quietly; eexists;
  split; [ first [ apply extends_refl
                 | unfold extends; cbn; rewrite <- ?app_assoc; reflexivity ]
         | reflexivity ].

Ltac next_select :=
  match goal with
  | |- context [select ?n ?cs ?p] =>
      let S := fresh "S" in
      let t := fresh "t" in
      let c := fresh "c" in
      destruct (select n cs p) as [[t c]|] eqn:S;
      [ destruct c; timed S
      | try (exfalso; eapply (select_blocked _ _ _ S); simpl; eauto; fail) ];
      cbn -[select Z.add]
  end.

(** A [select] one case of which can proceed does not block. *)
Ltac unblock S := exfalso; eapply (select_blocked _ _ _ S); simpl; eauto.

(** Closes a goal on instants from what the [select]s have chosen. *)
Ltac in_time :=
  repeat match goal with
         | H : ?x = Some _, L : context [match ?x with _ => _ end] |- _ =>
             rewrite H in L
         end;
  simpl in *;
  repeat match goal with
         | L : context [match ?c with Some _ => _ | None => _ end] |- _ =>
             destruct c eqn:?; try discriminate
         end;
  simpl in *;
  first [lia | exfalso; lia].

Section LoopFacts.
Context {W : Type}.
Variable d : dropOn W.
Variable resChan : chan.
Variable cancel : option Time.
Variable MaximumShutdownWait : Duration.

Lemma receive_quiet e s s' o :
  receive cancel e s = (s', o) -> quietly s s'.
Proof. unfold receive. run_loop; shape. Qed.

Lemma offer_quiet tk e ts s s' o :
  offer resChan cancel tk e ts s = (s', o) -> quietly s s'.
Proof. unfold offer. run_loop; shape. Qed.

Lemma await_quiet tk e s s' o :
  await cancel tk e s = (s', o) -> quietly s s'.
Proof. unfold await. run_loop; shape. Qed.

Lemma dropped_quiet res s s' r :
  dropped d res s = (s', r) -> quietly s s'.
Proof. unfold dropped. run_loop; shape. Qed.

Lemma absorb_quiet res s s' r :
  absorb d res s = (s', r) -> quietly s s'.
Proof. unfold absorb. run_loop; shape. Qed.

Lemma plain_quiet e ts s s' o :
  plain resChan cancel e ts s = (s', o) -> quietly s s'.
Proof.
  unfold plain. run_loop; shape.
Qed.

Lemma quietly_trans s1 s2 s3 :
  quietly s1 s2 -> quietly s2 s3 -> quietly s1 s3.
Proof.
  intros [e1 [X1 Q1]] [e2 [X2 Q2]]. exists (e1 ++ e2).
  split; [eapply extends_trans; eauto | apply quiet_app; auto].
Qed.

Lemma guarded_quiet e ts s s' o :
  guarded d resChan cancel e ts s = (s', o) -> quietly s s'.
Proof.
  unfold guarded.
  destruct (offer _ _ _ _ _ _) as [s1 [[]| |]] eqn:O; apply offer_quiet in O;
    try (intros [= <- <-]; exact O).
  destruct (await _ _ _ _) as [s2 [res| |]] eqn:A; apply await_quiet in A;
    try (intros [= <- <-]; eauto using quietly_trans).
  destruct (dropped _ _ _) as [s3 r] eqn:D; apply dropped_quiet in D.
  intros [= <- <-]. eauto using quietly_trans.
Qed.

Lemma deliver_quiet e ts s s' o :
  deliver d resChan cancel e ts s = (s', o) -> quietly s s'.
Proof.
  unfold deliver. destruct (0 <? _); eauto using guarded_quiet, plain_quiet.
Qed.

Lemma Ack_events e ts res s s' o :
  Ack cancel e ts res s = (s', o) ->
  (exists t, extends s s' [(t, Acked ts res)] /\ o = Next None) \/
  (extends s s' [] /\
   (o = Stuck \/
    (o = Next (Some Canceled) /\ ctx_Err cancel (now s') = Some Canceled))).
Proof.
  unfold Ack. destruct (select _ _ _) as [[t []]|] eqn:S; intros [= <- <-].
  - left. eauto with loop.
  - right. split; [apply extends_at|]. right. chosen S.
    injection I as ->. subst.
    unfold ctx_Err, due; simpl.
    destruct (Z.leb_spec x (Z.max (now s) x)); [auto|lia].
  - right. split; [apply extends_refl | auto].
Qed.

Lemma iteration_ack_value e s s1 ts s2 res s' o :
  receive cancel e s = (s1, Next ts) ->
  deliver d resChan cancel e ts s1 = (s2, Next res) ->
  iteration d resChan cancel e s = (s', o) ->
  exists evs, extends s s' evs /\ calm evs = true /\
    ((o = Next tt /\ acks evs = [(ts, snd (absorb d res s2))]) \/
     (o <> Next tt /\ acks evs = [])).
Proof.
  unfold iteration. intros R D. rewrite R, D.
  apply receive_quiet in R. destruct R as [ev0 [X0 Q0]].
  apply deliver_quiet in D; destruct D as [ev1 [X1 Q1]].
  destruct (absorb _ _ _) as [s3 res'] eqn:B.
  apply absorb_quiet in B. destruct B as [ev2 [X2 Q2]].
  destruct (Ack _ _ _ _ _) as [s4 o4] eqn:K.
  pose proof (extends_trans _ _ _ _ _ (extends_trans _ _ _ _ _ X0 X1) X2) as X.
  assert (Q : acks ((ev0 ++ ev1) ++ ev2) = [])
    by (apply quiet_acks; auto with loop).
  assert (QC : calm ((ev0 ++ ev1) ++ ev2) = true) by auto 6 with loop.
  apply Ack_events in K. destruct K as [[t [X4 ->]]|[X4 [->|[-> C]]]].
  - simpl. intros [= <- <-]. eexists; split; [eapply extends_trans; eauto|].
    split; [apply calm_app; auto|].
    left. split; [reflexivity|]. rewrite acks_app, Q. reflexivity.
  - intros [= <- <-]. eexists; split; [eapply extends_trans; eauto|].
    rewrite app_nil_r. split; [exact QC|].
    right. split; [discriminate|]. exact Q.
  - rewrite C. simpl. intros [= <- <-].
    eexists; split; [eapply extends_trans; eauto|].
    rewrite app_nil_r. split; [exact QC|].
    right. split; [discriminate|]. exact Q.
Qed.

Lemma iteration_no_value e s s1 ts s' o :
  receive cancel e s = (s1, Next ts) ->
  (forall s2 res, deliver d resChan cancel e ts s1 <> (s2, Next res)) ->
  iteration d resChan cancel e s = (s', o) ->
  exists evs,
    extends s s' evs /\ calm evs = true /\ o <> Next tt /\ acks evs = [].
Proof.
  unfold iteration. intros R N. rewrite R.
  apply receive_quiet in R. destruct R as [ev0 [X0 Q0]].
  destruct (deliver _ _ _ _ _ _) as [s2 [res| |]] eqn:D;
    [edestruct N; eauto| |];
    apply deliver_quiet in D; destruct D as [ev1 [X1 Q1]];
    intros [= <- <-]; exists (ev0 ++ ev1);
    (split; [eauto using extends_trans|]);
    (split; [auto with loop|]);
    (split; [discriminate | apply quiet_acks; auto with loop]).
Qed.

(** Without a cancellation no [select] takes its [ctx.Done()] case. *)
Lemma receive_live e s s' o :
  cancel = None -> receive cancel e s = (s', o) ->
  in_val e <> None -> exists ts, o = Next ts.
Proof.
  intros C. unfold receive.
  destruct (select _ _ _) as [[t [[ts|]|]]|] eqn:S; intros [= <- <-] V.
  - eauto.
  - chosen S. congruence.
  - chosen S. congruence.
  - exfalso. eapply (select_blocked _ _ _ S). simpl. eauto.
Qed.

Lemma offer_live tk e ts s s' o :
  cancel = None -> offer resChan cancel tk e ts s = (s', o) -> o = Next tt.
Proof.
  intros C. unfold offer. destruct (gotBackPressure s).
  - rewrite select_default_one.
    destruct (after _ _) as [t|]; [destruct (t <=? _)|];
      intros [= <- <-]; reflexivity.
  - destruct (select _ _ _) as [[t []]|] eqn:S; intros [= <- <-]; auto.
    + chosen S. congruence.
    + chosen S.
    + exfalso. eapply (select_blocked _ _ _ S). simpl. eauto.
Qed.

Lemma await_live tk e s s' o :
  cancel = None -> await cancel tk e s = (s', o) -> exists r, o = Next r.
Proof.
  intros C. unfold await. destruct (negb _).
  - destruct (select _ _ _) as [[t []]|] eqn:S; intros [= <- <-]; eauto.
    + chosen S. congruence.
    + exfalso. eapply (select_blocked _ _ _ S). simpl. eauto.
  - intros [= <- <-]; eauto.
Qed.

Lemma guarded_live e ts s s' o :
  cancel = None -> guarded d resChan cancel e ts s = (s', o) ->
  exists r, o = Next r.
Proof.
  intros C. unfold guarded.
  destruct (offer _ _ _ _ _ _) as [s1 o1] eqn:O.
  apply (offer_live _ _ _ _ _ _ C) in O. subst o1.
  destruct (await _ _ _ _) as [s2 o2] eqn:A.
  apply (await_live _ _ _ _ _ C) in A. destruct A as [r ->].
  destruct (dropped _ _ _). intros [= <- <-]. eauto.
Qed.

Lemma plain_live e ts s s' o :
  cancel = None -> accept_after e <> None -> result_after e <> None ->
  plain resChan cancel e ts s = (s', o) -> exists r, o = Next r.
Proof.
  intros C A R. unfold plain.
  destruct (accept_after e) as [a|]; [|congruence].
  destruct (result_after e) as [r|]; [|congruence].
  destruct (select _ _ _) as [[t []]|] eqn:S.
  - destruct (select t _ _) as [[t' []]|] eqn:S'; intros [= <- <-]; eauto.
    + chosen S'.
    + chosen S'. congruence.
    + exfalso. eapply (select_blocked _ _ _ S'). simpl. eauto.
  - chosen S.
  - chosen S. congruence.
  - chosen S.
  - exfalso. eapply (select_blocked _ _ _ S). simpl. eauto.
Qed.

Lemma Ack_live e ts res s s' o :
  cancel = None -> ack_after e <> None ->
  Ack cancel e ts res s = (s', o) -> o = Next None.
Proof.
  intros C A. unfold Ack. destruct (ack_after e) as [k|]; [|congruence].
  destruct (select _ _ _) as [[t []]|] eqn:S; intros [= <- <-]; auto.
  - chosen S. congruence.
  - exfalso. eapply (select_blocked _ _ _ S). simpl. eauto.
Qed.

Lemma plain_no_quit e ts s s' :
  cancel = None -> plain resChan cancel e ts s <> (s', Quit).
Proof.
  intros C. unfold plain.
  destruct (select _ _ _) as [[t []]|] eqn:S;
    try (chosen S; congruence); try discriminate.
  destruct (select t _ _) as [[t' []]|] eqn:S';
    try (chosen S'; congruence); discriminate.
Qed.

Lemma deliver_no_quit e ts s s' :
  cancel = None -> deliver d resChan cancel e ts s <> (s', Quit).
Proof.
  intros C. unfold deliver. destruct (0 <? _).
  - intros G. apply (guarded_live _ _ _ _ _ C) in G. destruct G; discriminate.
  - apply plain_no_quit, C.
Qed.

Lemma deliver_live e ts s s' o :
  cancel = None ->
  0 < onBackpressure d \/ (accept_after e <> None /\ result_after e <> None) ->
  deliver d resChan cancel e ts s = (s', o) -> exists r, o = Next r.
Proof.
  intros C L. unfold deliver. destruct (Z.ltb_spec 0 (onBackpressure d)).
  - apply guarded_live, C.
  - destruct L as [L|[A R]]; [lia|]. apply plain_live; auto.
Qed.

(** *** A shutdown that comes after the acknowledgement *)

Lemma Ack_in_time e ts res s k T :
  ack_after e = Some k -> 0 <= k -> later cancel T -> now s + k <= T ->
  Ack cancel e ts res s =
  (at_ s (now s + k) (gotBackPressure s) [(now s + k, Acked ts res)],
   Next None).
Proof.
  intros K K0 L B. unfold Ack. rewrite K. unfold later in L.
  cbn -[select Z.add].
  destruct (select _ _ _) as [[t c]|] eqn:S; [|unblock S].
  destruct c; timed S.
  - rewrite Z.max_r by lia. reflexivity.
  - in_time.
Qed.

Lemma guarded_in_time e ts s s' o T :
  0 < onBackpressure d -> later cancel T -> now s + onBackpressure d <= T ->
  guarded d resChan cancel e ts s = (s', o) ->
  (exists res, o = Next res) /\ now s <= now s' <= now s + onBackpressure d.
Proof.
  intros P L B. unfold later in L. unfold guarded, offer.
  destruct (gotBackPressure s) eqn:G.
  - rewrite select_default_one.
    destruct (after (now s) (accept_after e)) as [t|];
      [destruct (t <=? now s)|]; cbn -[select Z.add];
      unfold await, dropped; cbn -[select Z.add];
      repeat (rewrite G; cbn -[select Z.add]).
    + destruct (select _ _ _) as [[t1 c1]|] eqn:S1; [|unblock S1].
      destruct c1; timed S1; cbn -[Z.add]; intros E; inversion E; subst;
        clear E; cbn -[Z.add];
        first [ split; [eauto|]; in_time | in_time ].
    + intros E; inversion E; subst; clear E. cbn. split; [eauto|lia].
    + intros E; inversion E; subst; clear E. cbn. split; [eauto|lia].
  - destruct (select _ _ _) as [[t c]|] eqn:S; [|unblock S].
    destruct c; timed S; unfold await, dropped; cbn -[select Z.add].
    + destruct (select _ _ _) as [[t1 c1]|] eqn:S1; [|unblock S1].
      destruct c1; timed S1; cbn -[Z.add]; intros E; inversion E; subst;
        clear E; cbn -[Z.add];
        first [ split; [eauto|]; in_time | in_time ].
    + intros E; inversion E; subst; clear E. cbn -[Z.add].
      split; [eauto|in_time].
    + in_time.
Qed.

Lemma plain_in_time e ts s s' o a r T :
  accept_after e = Some a -> 0 <= a -> result_after e = Some r -> 0 <= r ->
  later cancel T -> now s + a + r <= T ->
  plain resChan cancel e ts s = (s', o) ->
  o = Next (result e) /\ now s' = now s + a + r.
Proof.
  intros A A0 R R0 L B. unfold later in L. unfold plain. rewrite A, R.
  cbn -[select Z.add].
  destruct (select _ _ _) as [[t c]|] eqn:S; [|unblock S].
  destruct c; timed S; cbn -[select Z.add]; try in_time.
  destruct (select _ _ _) as [[t1 c1]|] eqn:S1; [|unblock S1].
  destruct c1; timed S1; cbn -[Z.add]; try in_time.
  intros [= <- <-]. cbn -[Z.add]. split; [reflexivity|lia].
Qed.

Lemma absorb_keeps res s :
  now (fst (absorb d res s)) = now s /\
  gotBackPressure (fst (absorb d res s)) = gotBackPressure s /\
  quietly s (fst (absorb d res s)).
Proof.
  destruct (absorb d res s) as [s3 r] eqn:B.
  pose proof (absorb_quiet _ _ _ _ B) as Q. revert B. unfold absorb.
  destruct res; [destruct (onError d)|]; intros [= <- <-]; cbn; auto.
Qed.

(** When the delivery has a result and the context is not cancelled by
    the time the producer takes the acknowledgement, the acknowledgement
    is delivered and the loop goes round again. *)
Lemma iteration_completes e s s1 ts s2 res k s' o :
  receive cancel e s = (s1, Next ts) ->
  deliver d resChan cancel e ts s1 = (s2, Next res) ->
  ack_after e = Some k -> 0 <= k -> later cancel (now s2 + k) ->
  iteration d resChan cancel e s = (s', o) ->
  o = Next tt /\ now s' = now s2 + k /\
  exists pre,
    trail s' =
      trail s ++ pre ++ [(now s2 + k, Acked ts (snd (absorb d res s2)))] /\
    quiet pre = true.
Proof.
  intros R D K K0 L. unfold iteration. rewrite R, D.
  apply receive_quiet in R. destruct R as [ev0 [X0 Q0]].
  apply deliver_quiet in D. destruct D as [ev1 [X1 Q1]].
  destruct (absorb_keeps res s2) as [N [G [ev2 [X2 Q2]]]].
  destruct (absorb d res s2) as [s3 res'] eqn:B. simpl in *.
  rewrite (Ack_in_time e ts res' s3 k (now s2 + k) K K0 L) by lia.
  cbn -[Z.add]. intros [= <- <-]. cbn -[Z.add].
  split; [reflexivity|]. split; [lia|].
  exists ((ev0 ++ ev1) ++ ev2). split.
  - unfold extends in *. rewrite X2, X1, X0, N, <- !app_assoc. reflexivity.
  - auto using quiet_app.
Qed.

Lemma later_before (c : option Z) T T' : later c T -> T' <= T -> later c T'.
Proof. destruct c; simpl; [lia | auto]. Qed.

(** The delivery has a result when the context is not cancelled before the
    instant by which the producer has taken the acknowledgement: with a
    back pressure duration, the duration and the delay of the producer
    after the reception; without, the delays of the child and of the
    producer. *)
Lemma deliver_in_time e ts s1 s2 o k :
  ack_after e = Some k -> 0 <= k ->
  (0 < onBackpressure d /\ later cancel (now s1 + onBackpressure d + k)) \/
  (exists a r,
     onBackpressure d <= 0 /\
     accept_after e = Some a /\ 0 <= a /\
     result_after e = Some r /\ 0 <= r /\
     later cancel (now s1 + a + r + k)) ->
  deliver d resChan cancel e ts s1 = (s2, o) ->
  (exists res, o = Next res) /\ later cancel (now s2 + k).
Proof.
  intros K K0 [[P L]|[a [r [P [A [A0 [R [R0 L]]]]]]]]; unfold deliver.
  - destruct (Z.ltb_spec 0 (onBackpressure d)); [|lia]. intros G.
    destruct (guarded_in_time e ts s1 s2 o _ P L ltac:(lia) G) as [X B].
    split; [exact X|]. apply (later_before _ _ _ L). lia.
  - destruct (Z.ltb_spec 0 (onBackpressure d)); [lia|]. intros G.
    destruct (plain_in_time e ts s1 s2 o a r _ A A0 R R0 L ltac:(lia) G)
      as [X B].
    split; [eauto|]. apply (later_before _ _ _ L). lia.
Qed.

(** *** One acknowledgement *)

Lemma iteration_acks e s s1 ts s' o :
  receive cancel e s = (s1, Next ts) ->
  iteration d resChan cancel e s = (s', o) ->
  exists evs,
    trail s' = trail s ++ evs /\
    ((o = Next tt /\ exists r, acks evs = [(ts, r)]) \/
     (o <> Next tt /\ acks evs = [])) /\
    (cancel = None -> o <> Quit) /\
    (cancel = None -> ack_after e <> None ->
     0 < onBackpressure d \/
     (accept_after e <> None /\ result_after e <> None) ->
     o = Next tt).
Proof.
  intros R I.
  destruct (deliver d resChan cancel e ts s1) as [s2 [res| |]] eqn:D.
  - destruct (iteration_ack_value _ _ _ _ _ _ _ _ R D I) as [evs [X [_ V]]].
    exists evs. split; [exact X|]. split; [destruct V as [[? ?]|?]; eauto|].
    revert I. unfold iteration. rewrite R, D.
    destruct (absorb _ _ _) as [s3 res'].
    destruct (Ack _ _ _ _ _) as [s4 o4] eqn:K. split.
    + intros C. apply Ack_events in K.
      destruct K as [[t [_ ->]]|[_ [->|[_ K]]]]; simpl in I.
      * injection I as _ <-. discriminate.
      * injection I as _ <-. discriminate.
      * rewrite C in K. discriminate.
    + intros C A _. apply (Ack_live _ _ _ _ _ _ C A) in K. subst o4.
      simpl in I. congruence.
  - assert (N : forall s2' res,
               deliver d resChan cancel e ts s1 <> (s2', Next res))
      by (intros; congruence).
    destruct (iteration_no_value _ _ _ _ _ _ R N I) as [evs [X [_ [NO Q]]]].
    exists evs. split; [exact X|]. split; [auto|]. split.
    + intros C. exfalso. eapply deliver_no_quit; eauto.
    + intros C _ L. destruct (deliver_live _ _ _ _ _ C L D); discriminate.
  - assert (N : forall s2' res,
               deliver d resChan cancel e ts s1 <> (s2', Next res))
      by (intros; congruence).
    destruct (iteration_no_value _ _ _ _ _ _ R N I) as [evs [X [_ [NO Q]]]].
    exists evs. split; [exact X|]. split; [auto|]. split.
    + intros C. revert I. unfold iteration. rewrite R, D. congruence.
    + intros C _ L. destruct (deliver_live _ _ _ _ _ C L D); discriminate.
Qed.

(** C2, as the code has it.  With [onBackpressure = D > 0], not sticky
    and no cancellation before the tick: the send and the wait share one
    ticker, whose first tick comes [D] after the iteration made it.  A
    child that does not accept before the tick makes the message dropped
    at the tick; a child that accepts after [a < D] has the rest, [D - a],
    to answer: an answer after [r] with [a + r < D] is the result, a later
    one (or none) sets the sticky flag at the tick, drops the message and
    starts the goroutine that pulls the due response. *)
Theorem guarded_one_deadline e ts s s' o :
  0 < onBackpressure d ->
  gotBackPressure s = false ->
  later cancel (now s + onBackpressure d) ->
  guarded d resChan cancel e ts s = (s', o) ->
  let D := onBackpressure d in
  let out := NewTransaction (Payload ts) resChan in
  let tick := now s + D in
  let drop := if onError d then None
              else Some (Errorf_d "experienced back pressure beyond: %v" D) in
  let warn := Log (Warnln "Message dropped due to back pressure.") in
  (later (accept_after e) D ->
   o = Next drop /\ gotBackPressure s' = true /\ now s' = tick /\
   trail s' = trail s ++ [(tick, Tick); (tick, warn)]) /\
  (forall a, accept_after e = Some a -> 0 <= a < D ->
     (forall r, result_after e = Some r -> 0 <= r -> a + r < D ->
        o = Next (result e) /\ gotBackPressure s' = false /\
        now s' = now s + a + r /\
        trail s' = trail s ++ [(now s + a, Sent out);
                             (now s + a + r, Result (result e))]) /\
     (later (result_after e) (D - a) ->
        o = Next drop /\ gotBackPressure s' = true /\ now s' = tick /\
        trail s' = trail s ++ [(now s + a, Sent out); (tick, Tick);
                             (tick, Reclaim); (tick, warn)])).
Proof.
  intros P G C E. cbv zeta. revert E.
  unfold guarded, offer. rewrite G.
  destruct (select _ _ _) as [[t c]|] eqn:S.
  2:{ exfalso. eapply (select_blocked _ _ _ S). simpl. eauto. }
  unfold later in *.
  destruct (accept_after e) as [a|] eqn:A; destruct cancel as [k|] eqn:K;
    simpl in S; destruct c; timed S; try lia.
  all: unfold await, dropped; cbn -[select Z.add].
  all: try (destruct (select _ _ _) as [[t' c']|] eqn:S';
            [ destruct (result_after e) as [r|] eqn:R; simpl in S';
              destruct c'; timed S'
            | exfalso; eapply (select_blocked _ _ _ S'); simpl; eauto ]).
  all: cbn -[Z.add]; intros E; inversion E; subst; clear E; cbn -[Z.add].
  all: repeat split; intros;
       repeat match goal with
              | H : Some _ = Some _ |- _ => inversion H; subst; clear H
              end;
       try lia; try discriminate;
       rewrite <- ?app_assoc; cbn -[Z.add];
       rewrite ?Z.max_r in * by lia; try lia;
       try (repeat f_equal; lia).
Qed.

(** C3.  In sticky back pressure the transaction is offered once, without
    blocking.  A child that cannot accept at that instant makes the
    message dropped at that instant, the flag staying set; a child that
    accepts clears the flag, and the loop waits for the result against the
    ticker: an answer before the tick is the result, a later one (or none)
    sets the flag again and drops the message. *)
Theorem sticky_offer_never_waits e ts s s' o :
  0 < onBackpressure d ->
  gotBackPressure s = true ->
  guarded d resChan cancel e ts s = (s', o) ->
  let D := onBackpressure d in
  let out := NewTransaction (Payload ts) resChan in
  let drop := if onError d then None
              else Some (Errorf_d "experienced back pressure beyond: %v" D) in
  let warn := Log (Warnln "Message dropped due to back pressure.") in
  (exists s1,
     offer resChan cancel (now s + D) e ts s = (s1, Next tt) /\
     now s1 = now s /\
     (trail s1 = trail s \/ trail s1 = trail s ++ [(now s, Sent out)])) /\
  (later (accept_after e) 0 ->
     o = Next drop /\ gotBackPressure s' = true /\ now s' = now s /\
     trail s' = trail s ++ [(now s, warn)]) /\
  (forall a, accept_after e = Some a -> a <= 0 ->
     (forall r, result_after e = Some r -> 0 <= r < D ->
        later cancel (now s + r) ->
        o = Next (result e) /\ gotBackPressure s' = false /\
        now s' = now s + r /\
        trail s' = trail s ++ [(now s, Sent out);
                             (now s + r, Result (result e))]) /\
     (later (result_after e) D -> later cancel (now s + D) ->
        o = Next drop /\ gotBackPressure s' = true /\ now s' = now s + D /\
        trail s' = trail s ++ [(now s, Sent out); (now s + D, Tick);
                             (now s + D, Reclaim); (now s + D, warn)])).
Proof.
  intros P G. cbv zeta. unfold guarded, offer. rewrite G.
  rewrite select_default_one. unfold later.
  destruct (accept_after e) as [a|] eqn:A; cbn [after];
    [destruct (Z.leb_spec (now s + a) (now s))|].
  all: unfold await, dropped; cbn -[select Z.add];
       repeat (rewrite G; cbn -[select Z.add]).
  1: destruct (select _ _ _) as [[t' c']|] eqn:S';
       [ destruct (result_after e) as [r|] eqn:R;
         destruct cancel as [k|] eqn:K; simpl in S';
         destruct c'; timed S'
       | exfalso; eapply (select_blocked _ _ _ S'); simpl; eauto ].
  all: cbn -[Z.add]; intros E; inversion E; subst; clear E; cbn -[Z.add].
  all: repeat split; intros;
       repeat match goal with
              | H : Some _ = Some _ |- _ => inversion H; subst; clear H
              end;
       try lia; try discriminate;
       try (eexists; split; [reflexivity|]; cbn; auto; fail);
       rewrite <- ?app_assoc; cbn -[Z.add];
       rewrite ?Z.max_r in * by lia; try lia;
       try (repeat f_equal; lia).
Qed.

(** C10.  With [onError = false] and no back pressure duration, and no
    shutdown before the transaction is acknowledged: the payload goes to
    the child unchanged in a transaction on [resChan], the loop waits for
    the result however long it takes, and the producer is acknowledged
    with exactly that result.  When the result never comes the loop stays
    blocked on it. *)
Theorem passthrough e s ts a k s' o :
  onError d = false ->
  onBackpressure d <= 0 ->
  in_val e = Some ts -> 0 <= in_after e ->
  accept_after e = Some a -> 0 <= a ->
  ack_after e = Some k -> 0 <= k ->
  iteration d resChan cancel e s = (s', o) ->
  let out := NewTransaction (Payload ts) resChan in
  let t1 := now s + in_after e + a in
  (forall r, result_after e = Some r -> 0 <= r ->
     later cancel (t1 + r + k) ->
     o = Next tt /\ now s' = t1 + r + k /\
     gotBackPressure s' = gotBackPressure s /\
     trail s' = trail s ++ [(t1, Sent out);
                          (t1 + r, Result (result e));
                          (t1 + r + k, Acked ts (result e))]) /\
  (result_after e = None -> cancel = None ->
     o = Stuck /\ trail s' = trail s ++ [(t1, Sent out)]).
Proof.
  intros OE BP V I0 A A0 K K0. cbv zeta.
  unfold iteration, receive, deliver, plain, absorb, Ack.
  destruct (Z.ltb_spec 0 (onBackpressure d)) as [?|_]; [lia|].
  rewrite V, A, K, OE. unfold later.
  destruct cancel as [c|] eqn:C; destruct (result_after e) as [r|] eqn:R.
  all: cbn -[select Z.add].
  all: repeat next_select.
  all: try (destruct (result e); cbn -[select Z.add]; repeat next_select).
  all: cbn -[Z.add]; rewrite ?Z.max_r in * by lia.
  all: repeat match goal with
              | |- context [?x <=? ?y] => destruct (Z.leb_spec x y); [|lia]
              end.
  all: cbn -[Z.add]; intros E; inversion E; subst; clear E; cbn -[Z.add].
  all: repeat split; intros;
       repeat match goal with
              | H : Some _ = Some _ |- _ => inversion H; subst; clear H
              end;
       try lia; try discriminate;
       rewrite <- ?app_assoc; cbn -[Z.add];
       rewrite ?Z.max_r in * by lia; try lia;
       try (repeat f_equal; lia).
Qed.

(** *** What a drop for back pressure resolves to *)

Lemma guarded_drop_value e ts s s' res :
  guarded d resChan cancel e ts s = (s', Next res) ->
  gotBackPressure s' = true ->
  res = if onError d then None
        else Some (Errorf_d "experienced back pressure beyond: %v"
                            (onBackpressure d)).
Proof.
  unfold guarded.
  destruct (offer _ _ _ _ _ _) as [s1 [[]| |]]; try discriminate.
  destruct (await _ _ _ _) as [s2 [r| |]]; try discriminate.
  unfold dropped. destruct (gotBackPressure s2) eqn:G;
    intros E G'; inversion E; subst; simpl in *;
    first [reflexivity | congruence].
Qed.

Lemma plain_keeps_flag e ts s s' o :
  plain resChan cancel e ts s = (s', o) ->
  gotBackPressure s' = gotBackPressure s.
Proof. unfold plain. run_loop; intros [= <- <-]; reflexivity. Qed.

(** C4.  When the delivery of a received transaction ends with the sticky
    flag set (the message was dropped for back pressure), what the loop
    acknowledges with is [nil] if [onError] is set, and otherwise the
    error made from the configured duration, which is not [nil].  That
    value is delivered on the transaction's channel, and the loop goes
    round again, whenever the producer takes the acknowledgement before
    the context is cancelled; no other value is ever delivered on the
    transaction's channel. *)
Theorem backpressure_drop_resolution e s s1 ts s2 res s' o :
  0 < onBackpressure d ->
  receive cancel e s = (s1, Next ts) ->
  deliver d resChan cancel e ts s1 = (s2, Next res) ->
  gotBackPressure s2 = true ->
  iteration d resChan cancel e s = (s', o) ->
  let verdict := if onError d then None
                 else Some (Errorf_d "experienced back pressure beyond: %v"
                                     (onBackpressure d)) in
  res = verdict /\
  snd (absorb d res s2) = verdict /\
  (onError d = true -> verdict = None) /\
  (onError d = false -> verdict <> None) /\
  exists evs,
    trail s' = trail s ++ evs /\
    ((o = Next tt /\ acks evs = [(ts, verdict)]) \/
     (o <> Next tt /\ acks evs = [])) /\
    (forall k, ack_after e = Some k -> 0 <= k ->
       later cancel (now s2 + k) ->
       o = Next tt /\ now s' = now s2 + k /\
       acks evs = [(ts, verdict)] /\
       In (now s2 + k, Acked ts verdict) evs).
Proof.
  intros P R D G I. cbv zeta.
  assert (V : res = if onError d then None
                    else Some (Errorf_d "experienced back pressure beyond: %v"
                                        (onBackpressure d))).
  { revert D. unfold deliver.
    destruct (Z.ltb_spec 0 (onBackpressure d)); [|lia].
    intros D. eapply guarded_drop_value; eauto. }
  assert (B : snd (absorb d res s2) = res).
  { rewrite V. unfold absorb. destruct (onError d); reflexivity. }
  split; [exact V|]. split; [rewrite B; exact V|].
  split; [intros ->; reflexivity|]. split; [intros ->; discriminate|]. clear G.
  destruct (iteration_ack_value _ _ _ _ _ _ _ _ R D I) as [evs [X [_ A]]].
  exists evs. split; [exact X|]. rewrite B, V in A. split; [exact A|].
  intros k K K0 L.
  destruct (iteration_completes e s s1 ts s2 res k s' o R D K K0 L I)
    as [O [N [pre [T Q]]]].
  split; [exact O|]. split; [exact N|].
  unfold extends in X. rewrite X in T. apply app_inv_head in T.
  rewrite B, V in T. subst evs. split.
  - rewrite acks_app, (quiet_acks _ Q). reflexivity.
  - apply in_or_app. right. left. reflexivity.
Qed.

(** *** Error mode *)

Lemma absorb_onError res s : onError d = true -> snd (absorb d res s) = None.
Proof. intros OE. unfold absorb. rewrite OE. destruct res; reflexivity. Qed.


Lemma iteration_events e s s' o :
  iteration d resChan cancel e s = (s', o) ->
  exists evs, extends s s' evs /\ calm evs = true /\
    (acks evs = [] \/
     exists ts res s2, acks evs = [(ts, snd (absorb d res s2))]).
Proof.
  intros I.
  destruct (receive cancel e s) as [s1 [ts| |]] eqn:R.
  - destruct (deliver d resChan cancel e ts s1) as [s2 [res| |]] eqn:D.
    + destruct (iteration_ack_value _ _ _ _ _ _ _ _ R D I)
        as [evs [X [C [[_ A]|[_ A]]]]];
        exists evs; eauto 8.
    + destruct (iteration_no_value e s s1 ts s' o R) as [evs [X [C [_ A]]]];
        [intros; congruence | exact I | exists evs; auto].
    + destruct (iteration_no_value e s s1 ts s' o R) as [evs [X [C [_ A]]]];
        [intros; congruence | exact I | exists evs; auto].
  - revert I. unfold iteration. rewrite R. intros [= <- <-].
    apply receive_quiet in R. destruct R as [evs [X Q]].
    exists evs. auto using quiet_calm, quiet_acks.
  - revert I. unfold iteration. rewrite R. intros [= <- <-].
    apply receive_quiet in R. destruct R as [evs [X Q]].
    exists evs. auto using quiet_calm, quiet_acks.
Qed.

Lemma rounds_events envs : forall s s' b,
  rounds d resChan cancel envs s = (s', b) ->
  exists evs, extends s s' evs /\ calm evs = true /\
    (onError d = true -> all_nil (acks evs)).
Proof.
  induction envs as [|e rest IH]; simpl; intros s s' b.
  - destruct (select _ _ _) as [[t c]|]; intros [= <- <-]; exists [].
    + split; [apply extends_at|]. split; [reflexivity|]. intros _. constructor.
    + split; [apply extends_refl|]. split; [reflexivity|]. intros _.
      constructor.
  - destruct (iteration d resChan cancel e s) as [s1 o] eqn:I.
    apply iteration_events in I. destruct I as [ev1 [X1 [C1 A1]]].
    assert (N1 : onError d = true -> all_nil (acks ev1)).
    { intros OE. destruct A1 as [->|[ts [res [s2 ->]]]]; [constructor|].
      rewrite absorb_onError by exact OE. repeat constructor. }
    destruct o as [[]| |].
    + intros R. apply IH in R. destruct R as [ev2 [X2 [C2 N2]]].
      exists (ev1 ++ ev2). split; [eauto using extends_trans|].
      split; [auto with loop|]. intros OE. rewrite acks_app.
      unfold all_nil in *. apply Forall_app. split; auto.
    + intros [= <- <-]. exists ev1. auto.
    + intros [= <- <-]. exists ev1. auto.
Qed.


(** *** Shutdown *)

Lemma guarded_unblocked e ts s s' :
  guarded d resChan cancel e ts s <> (s', Stuck).
Proof.
  unfold guarded, offer, await, dropped.
  destruct (gotBackPressure s) eqn:G.
  - rewrite select_default_one.
    destruct (after (now s) (accept_after e)) as [t|];
      [destruct (t <=? now s)|]; cbn -[select]; rewrite ?G; cbn -[select];
      rewrite ?G; try discriminate.
    destruct (select _ _ _) as [[t' []]|] eqn:S; try discriminate. unblock S.
  - destruct (select _ _ _) as [[t []]|] eqn:S; [clear S..|unblock S];
      cbn -[select]; try discriminate.
    destruct (select _ _ _) as [[t' []]|] eqn:S'; try discriminate. unblock S'.
Qed.

Lemma plain_unblocked c e ts s s' :
  cancel = Some c -> plain resChan cancel e ts s <> (s', Stuck).
Proof.
  intros C. unfold plain. rewrite C.
  destruct (select _ _ _) as [[t []]|] eqn:S; [clear S..|unblock S];
    try discriminate.
  destruct (select _ _ _) as [[t' []]|] eqn:S'; try discriminate. unblock S'.
Qed.

Lemma iteration_unblocked c e s s' :
  cancel = Some c -> iteration d resChan cancel e s <> (s', Stuck).
Proof.
  intros C. unfold iteration.
  destruct (receive cancel e s) as [s1 [ts| |]] eqn:R; try discriminate.
  2:{ revert R. unfold receive.
      destruct (select _ _ _) as [[t [[?|]|]]|] eqn:S; try discriminate.
      unblock S. }
  destruct (deliver d resChan cancel e ts s1) as [s2 [res| |]] eqn:D;
    try discriminate.
  2:{ exfalso. revert D. unfold deliver. destruct (0 <? _).
      - apply guarded_unblocked.
      - eapply plain_unblocked; eauto. }
  destruct (absorb d res s2) as [s3 res']. unfold Ack. rewrite C.
  destruct (select _ _ _) as [[t []]|] eqn:S; cbn -[select].
  - discriminate.
  - destruct (_ && _); discriminate.
  - unblock S.
Qed.

Lemma rounds_return c envs : forall s,
  cancel = Some c -> snd (rounds d resChan cancel envs s) = true.
Proof.
  induction envs as [|e rest IH]; simpl; intros s C.
  - rewrite C. destruct (select _ _ _) as [[t x]|] eqn:S; [reflexivity|].
    unblock S.
  - destruct (iteration d resChan cancel e s) as [s1 [[]| |]] eqn:I; auto.
    exfalso. eapply iteration_unblocked; eauto.
Qed.

Lemma child_WaitForClose_bounds finish timeout t :
  t <= child_WaitForClose finish timeout t /\
  (0 <= timeout -> child_WaitForClose finish timeout t <= t + timeout).
Proof.
  unfold child_WaitForClose.
  destruct (select _ _ _) as [[t' []]|] eqn:S; [|unblock S].
  apply select_sound in S. destruct S as [[x [_ ->]] L].
  destruct finish; simpl in L; unfold due in *; lia.
Qed.

Lemma child_WaitForClose_exact finish timeout t :
  (forall f, finish = Some f -> 0 <= f <= timeout ->
     child_WaitForClose finish timeout t = t + f) /\
  (later finish timeout -> 0 <= timeout ->
     child_WaitForClose finish timeout t = t + timeout).
Proof.
  unfold child_WaitForClose, later.
  destruct (select _ _ _) as [[t' []]|] eqn:S; [|unblock S].
  apply select_sound in S. destruct S as [[x [I ->]] L].
  destruct finish as [f|]; simpl in I, L; unfold due in *.
  - split.
    + intros f' [= <-] B.
      destruct I as [I|[I|[]]]; injection I as <-; lia.
    + intros B T.
      destruct I as [I|[I|[]]]; injection I as <-; lia.
  - split; [discriminate|]. intros _ T.
    destruct I as [I|[I|[]]]; [discriminate|]. injection I as <-. lia.
Qed.

Lemma WaitForClose_nil closed timeout t pick tr :
  WaitForClose closed timeout t pick = (tr, None) ->
  exists tc, closed = Some tc /\ tr = due t tc.
Proof.
  unfold WaitForClose.
  destruct (select _ _ _) as [[t' x]|] eqn:S; [|discriminate].
  intros [= -> ->]. chosen S. injection I as ->. eauto.
Qed.

(** *** A loop that returns was shut down *)

(** The loop returns from a delivery or from an acknowledgement only
    through [ctx.Done()]: the context was cancelled by then. *)
Ltac by_done S :=
  chosen S;
  match goal with
  | I : (cancel, _) = (Some ?x, _) |- _ =>
      let J := fresh "J" in
      injection I as J; exists x; split; [exact J|];
      cbn; unfold due in *; lia
  end.

Lemma offer_quit tk e ts s s' :
  offer resChan cancel tk e ts s = (s', Quit) ->
  exists c, cancel = Some c /\ c <= now s'.
Proof.
  unfold offer. destruct (gotBackPressure s).
  - rewrite select_default_one.
    destruct (after _ _) as [t|]; [destruct (t <=? _)|]; discriminate.
  - destruct (select _ _ _) as [[t c]|] eqn:S; [|discriminate].
    destruct c; try discriminate; intros [= <-]; by_done S.
Qed.

Lemma await_quit tk e s s' :
  await cancel tk e s = (s', Quit) ->
  exists c, cancel = Some c /\ c <= now s'.
Proof.
  unfold await. destruct (negb _); [|discriminate].
  destruct (select _ _ _) as [[t c]|] eqn:S; [|discriminate].
  destruct c; try discriminate; intros [= <-]; by_done S.
Qed.

Lemma guarded_quit e ts s s' :
  guarded d resChan cancel e ts s = (s', Quit) ->
  exists c, cancel = Some c /\ c <= now s'.
Proof.
  unfold guarded.
  destruct (offer _ _ _ _ _ _) as [s1 [[]| |]] eqn:O; try discriminate.
  - destruct (await _ _ _ _) as [s2 [r| |]] eqn:A; try discriminate.
    + destruct (dropped _ _ _). discriminate.
    + intros [= <-]. eapply await_quit; eauto.
  - intros [= <-]. eapply offer_quit; eauto.
Qed.

Lemma plain_quit e ts s s' :
  plain resChan cancel e ts s = (s', Quit) ->
  exists c, cancel = Some c /\ c <= now s'.
Proof.
  unfold plain.
  destruct (select _ _ _) as [[t c]|] eqn:S; [|discriminate].
  destruct c; try (intros [= <-]; by_done S). clear S.
  destruct (select _ _ _) as [[t1 c1]|] eqn:S1; [|discriminate].
  destruct c1; try discriminate; intros [= <-]; by_done S1.
Qed.

Lemma iteration_quit e s s1 ts s' :
  receive cancel e s = (s1, Next ts) ->
  iteration d resChan cancel e s = (s', Quit) ->
  exists c, cancel = Some c /\ c <= now s'.
Proof.
  intros R. unfold iteration. rewrite R.
  destruct (deliver d resChan cancel e ts s1) as [s2 [res| |]] eqn:D;
    try discriminate.
  - destruct (absorb d res s2) as [s3 res'].
    destruct (Ack cancel e ts res' s3) as [s4 [x| |]] eqn:K;
      try discriminate.
    + destruct (negb (is_nil x) && _) eqn:B; [|discriminate].
      intros [= <-]. apply andb_prop in B. destruct B as [_ B].
      unfold ctx_Err in B. destruct cancel as [c|] eqn:C; [|discriminate].
      exists c. split; [reflexivity|].
      destruct (Z.leb_spec c (now s4)); [assumption|discriminate].
    + revert K. unfold Ack.
      destruct (select _ _ _) as [[t []]|]; discriminate.
  - intros [= <-]. revert D. unfold deliver.
    destruct (0 <? _); [apply guarded_quit | apply plain_quit].
Qed.

(** C1, as the code has it.  For a transaction [ts] that the loop received,
    the iteration delivers at most one acknowledgement, on [ts]: exactly
    one when the loop goes round again, none when the loop returns or
    blocks.  Exactly one acknowledgement is delivered, and the loop goes
    round again, whenever the context is not cancelled by the instant at
    which the iteration ends, the producer taking the acknowledgement and
    the child answering or being timed.  That instant comes, with a back
    pressure duration [D], no later than [D] and the delay of the producer
    after the reception, whatever the child does; without one, after the
    delays of the child (which has to accept and to answer) and of the
    producer.  A shutdown at any later instant changes nothing, and
    without any shutdown the loop never returns. *)
Theorem loop_acks_at_most_once e s s1 ts s' o :
  receive cancel e s = (s1, Next ts) ->
  iteration d resChan cancel e s = (s', o) ->
  exists evs,
    trail s' = trail s ++ evs /\
    ((o = Next tt /\ exists r, acks evs = [(ts, r)]) \/
     (o <> Next tt /\ acks evs = [])) /\
    (cancel = None -> o <> Quit) /\
    (cancel = None -> ack_after e <> None ->
     0 < onBackpressure d \/
     (accept_after e <> None /\ result_after e <> None) ->
     o = Next tt) /\
    (later cancel (now s') ->
     cancel <> None \/
     (ack_after e <> None /\
      (0 < onBackpressure d \/
       (accept_after e <> None /\ result_after e <> None))) ->
     o = Next tt /\ exists r, acks evs = [(ts, r)]) /\
    (forall k, ack_after e = Some k -> 0 <= k ->
       (0 < onBackpressure d /\
        later cancel (now s1 + onBackpressure d + k)) \/
       (exists a r,
          onBackpressure d <= 0 /\
          accept_after e = Some a /\ 0 <= a /\
          result_after e = Some r /\ 0 <= r /\
          later cancel (now s1 + a + r + k)) ->
       o = Next tt /\ exists r, acks evs = [(ts, r)]).
Proof.
  intros R I.
  destruct (iteration_acks e s s1 ts s' o R I) as [evs [X [V [Q L]]]].
  exists evs. split; [exact X|]. split; [exact V|]. split; [exact Q|].
  split; [exact L|]. split.
  - intros T C.
    assert (O : o = Next tt).
    { destruct o as [[]| |]; [reflexivity| |].
      - destruct (iteration_quit e s s1 ts s' R I) as [c [E B]].
        rewrite E in T. simpl in T. lia.
      - destruct cancel as [c|] eqn:E.
        + exfalso. rewrite <- E in I.
          exact (iteration_unblocked c e s s' E I).
        + destruct C as [C|[A B]]; [congruence|]. exact (L eq_refl A B). }
    split; [exact O|]. destruct V as [[_ V]|[N _]]; [exact V | congruence].
  - intros k K K0 C.
    destruct (deliver d resChan cancel e ts s1) as [s2 o2] eqn:D.
    destruct (deliver_in_time e ts s1 s2 o2 k K K0 C D) as [[res ->] T].
    destruct (iteration_completes e s s1 ts s2 res k s' o R D K K0 T I)
      as [-> _].
    destruct V as [V|[N _]]; [exact V | congruence].
Qed.

(** C6, as the code has it.  Once the context is cancelled the loop
    returns, whatever it was waiting for.  When it returns, it closes
    [transactionsOut], calls the child's [CloseAsync], waits for the
    child's [WaitForClose] with [MaximumShutdownWait] (at most that long),
    and only then closes [closedChan]: these are the last four events, and
    no earlier event closes anything.  A child that needs no longer than
    the bound to close has closed when [closedChan] is closed, which
    happens at that very instant; for a child that needs longer, or never
    closes, the result of the wait is discarded and [closedChan] is
    closed when the bound has elapsed, before the child has closed.
    [WaitForClose] returns [nil] only if [closedChan] was closed, no
    earlier than that. *)
Theorem shutdown_closes_child_first envs finish start :
  let run := loop d resChan cancel MaximumShutdownWait envs finish start in
  (cancel <> None -> snd run = true) /\
  (snd run = true ->
   exists pre t t',
     trail (fst run) =
       pre ++ [(t, CloseOut); (t, ChildCloseAsync);
               (t', ChildAwaited MaximumShutdownWait); (t', Closed)] /\
     calm pre = true /\
     t <= t' /\
     (0 <= MaximumShutdownWait -> t' <= t + MaximumShutdownWait) /\
     closed_at run = Some t' /\
     (forall f, finish = Some f -> 0 <= f <= MaximumShutdownWait ->
        t' = t + f) /\
     (later finish MaximumShutdownWait -> 0 <= MaximumShutdownWait ->
        t' = t + MaximumShutdownWait)) /\
  (forall timeout at_ pick tr,
     WaitForClose (closed_at run) timeout at_ pick = (tr, None) ->
     snd run = true /\
     exists t', closed_at run = Some t' /\ t' <= tr).
Proof.
  cbv zeta. unfold loop, closed_at.
  destruct (rounds _ _ _ _ _) as [s b] eqn:R.
  split; [|split].
  - destruct cancel as [c|] eqn:C; [intros _|congruence].
    pose proof (rounds_return c envs
                  {| now := start; gotBackPressure := false; trail := [] |} C)
      as T.
    rewrite C, R in T. simpl in T. subst b. reflexivity.
  - destruct b; simpl; [intros _|discriminate].
    apply rounds_events in R. destruct R as [evs [X [C _]]].
    unfold extends in X; simpl in X.
    exists (trail s), (now s),
      (child_WaitForClose finish MaximumShutdownWait (now s)).
    rewrite X. split; [reflexivity|]. split; [exact C|].
    pose proof (child_WaitForClose_bounds finish MaximumShutdownWait (now s)).
    pose proof (child_WaitForClose_exact finish MaximumShutdownWait (now s)).
    tauto.
  - intros timeout tw pick tr Wt. apply WaitForClose_nil in Wt.
    destruct Wt as [tc [E ->]]. destruct b; simpl in *; [|discriminate].
    split; [reflexivity|]. exists tc. split; [exact E|]. unfold due. lia.
Qed.

End LoopFacts.

(** ** Construction *)

(** C7, as the code has it.  A back_pressure string that is not empty and
    that [time.ParseDuration] refuses makes [newDropOn] return an error
    that wraps the parser's, and no decorator (the empty string is not
    parsed: it stands for no back pressure).  A key expression that the
    field parser refuses makes [NewCache] return an error and no writer,
    and so does a TTL expression that it refuses. *)
Theorem construction_errors :
  (forall (W : Type) (parse : string -> Duration * err)
          (conf : DropOnConditions) (child : W) (mk : chan) (e : error),
     BackPressure conf <> EmptyString ->
     snd (parse (BackPressure conf)) = Some e ->
     newDropOn parse conf child mk =
     (None, Some (Errorf_e "failed to parse back_pressure duration: %w" e))) /\
  (forall (E : Type) (conf : CacheWriter.CacheConfig)
          (mgr : CacheWriter.Manager E),
     (forall e,
        snd (CacheWriter.NewField mgr (CacheWriter.Key conf)) = Some e ->
        CacheWriter.NewCache conf mgr =
        (None, Some (Errorf_e "failed to parse key expression: %v" e))) /\
     (forall e,
        snd (CacheWriter.NewField mgr (CacheWriter.Key conf)) = None ->
        snd (CacheWriter.NewField mgr (CacheWriter.TTL conf)) = Some e ->
        CacheWriter.NewCache conf mgr =
        (None, Some (Errorf_e "failed to parse ttl expression: %v" e))) /\
     (snd (CacheWriter.NewField mgr (CacheWriter.Key conf)) <> None \/
      snd (CacheWriter.NewField mgr (CacheWriter.TTL conf)) <> None ->
      fst (CacheWriter.NewCache conf mgr) = None /\
      snd (CacheWriter.NewCache conf mgr) <> None)).
Proof.
  split.
  - intros W parse conf child mk e N P. unfold newDropOn.
    destruct (BackPressure conf) as [|c r] eqn:B; [congruence|].
    simpl. rewrite P. reflexivity.
  - intros E conf mgr. unfold CacheWriter.NewCache.
    destruct (CacheWriter.NewField mgr (CacheWriter.Key conf)) as [k [ek|]];
      destruct (CacheWriter.NewField mgr (CacheWriter.TTL conf)) as [t [et|]];
      simpl; (split; [|split]);
      try (intros e [= <-]; reflexivity);
      try (intros e _ [= <-]; reflexivity);
      try (intros e; discriminate);
      try (intros e _; discriminate);
      try (intros _; split; [reflexivity|discriminate]);
      intros [X|X]; congruence.
Qed.

(** ** Binding *)


(** ** The websocket writer *)


Import Scenario.


(** ** The properties on concrete runs *)

(** The scenario of the documentation: [back_pressure: 10ms] and a child
    that accepts after 100ms.  The transaction, which arrived at 5ns, is
    acknowledged with the back pressure error 10ms later (the producer
    takes 1ns), not after 100ms. *)
Example back_pressure_10ms :
  newDropOn GoTime.ParseDuration {| Error := false; BackPressure := "10ms" |}
            (Some 0%nat) 0%nat =
    (Some {| onError := false; onBackpressure := 10000000;
             wrapped := Some 0%nat; transactionsIn := None;
             transactionsOut := 0%nat; closedChan := 1%nat |}, None) /\
  iteration (decorator false 10000000) rc None
            (env (Some 100000000) (Some 1) None) idle =
    ({| now := 10000006; gotBackPressure := true;
        trail := [(10000005, Tick);
                 (10000005,
                  Log (Warnln "Message dropped due to back pressure."));
                 (10000006,
                  Acked ts0 (Some (Errorf_d
                                     "experienced back pressure beyond: %v"
                                     10000000)))] |}, Next tt).
Proof. split; reflexivity. Qed.

(** A child that accepts at the very instant of the tick: the [select]
    takes either case. *)
Example accept_at_the_tick :
  snd (offer rc None 10
             {| in_after := 5; in_val := Some ts0; accept_after := Some 10;
                result_after := Some 1; result := None; ack_after := Some 1;
                pick_in := 0; pick_send := 0; pick_wait := 0; pick_ack := 0 |}
             ts0 idle) = Next tt /\
  gotBackPressure
    (fst (offer rc None 10
                {| in_after := 5; in_val := Some ts0;
                   accept_after := Some 10; result_after := Some 1;
                   result := None; ack_after := Some 1;
                   pick_in := 0; pick_send := 0; pick_wait := 0;
                   pick_ack := 0 |}
                ts0 idle)) = false /\
  gotBackPressure
    (fst (offer rc None 10
                {| in_after := 5; in_val := Some ts0;
                   accept_after := Some 10; result_after := Some 1;
                   result := None; ack_after := Some 1;
                   pick_in := 0; pick_send := 1; pick_wait := 0;
                   pick_ack := 0 |}
                ts0 idle)) = true.
Proof. repeat split. Qed.

Lemma loop_acks_at_most_once_witness :
  receive (Some 1000) (env (Some 2) (Some 3) None) idle =
    ({| now := 5; gotBackPressure := false; trail := [] |}, Next ts0) /\
  exists evs,
    trail (fst (iteration (decorator false 0) rc (Some 1000)
                         (env (Some 2) (Some 3) None) idle)) =
      trail idle ++ evs /\
    snd (iteration (decorator false 0) rc (Some 1000)
                   (env (Some 2) (Some 3) None) idle) = Next tt /\
    exists r, acks evs = [(ts0, r)].
Proof.
  split; [reflexivity|].
  destruct (loop_acks_at_most_once
              (decorator false 0) rc (Some 1000)
              (env (Some 2) (Some 3) None) idle
              _ ts0 _ _ eq_refl eq_refl) as [evs [X [_ [_ [_ [_ H]]]]]].
  exists evs. split; [exact X|].
  apply (H 1 eq_refl ltac:(lia)). right. exists 2, 3.
  split; [discriminate|]. split; [reflexivity|]. split; [lia|].
  split; [reflexivity|]. split; [lia | reflexivity].
Defined.

(** C1 fails when the decorator is shut down while a transaction is in
    flight: the child never accepts [ts0], which arrived at 5ns, and the
    context is cancelled at 8ns.  The loop received [ts0], returned and
    closed down, and no acknowledgement was delivered. *)
Lemma shutdown_in_flight_acknowledges_nothing :
  receive (Some 8) (env None None None) idle =
    ({| now := 5; gotBackPressure := false; trail := [] |}, Next ts0) /\
  iteration (decorator false 0) rc (Some 8) (env None None None) idle =
    ({| now := 8; gotBackPressure := false; trail := [] |}, Quit) /\
  loop (decorator false 0) rc (Some 8) 1000 [env None None None] (Some 3) 0 =
    ({| now := 11; gotBackPressure := false;
        trail := [(8, CloseOut); (8, ChildCloseAsync);
                 (11, ChildAwaited 1000); (11, Closed)] |}, true) /\
  acks (trail (fst (loop (decorator false 0) rc (Some 8) 1000
                        [env None None None] (Some 3) 0))) = [].
Proof. repeat split. Qed.

Lemma guarded_one_deadline_witness :
  0 < onBackpressure (decorator false 10) /\
  gotBackPressure idle = false /\
  later None (now idle + onBackpressure (decorator false 10)) /\
  snd (guarded (decorator false 10) rc None (env (Some 2) (Some 3) None)
               ts0 idle) = Next None /\
  gotBackPressure
    (fst (guarded (decorator false 10) rc None (env (Some 2) (Some 3) None)
                  ts0 idle)) = false /\
  now (fst (guarded (decorator false 10) rc None (env (Some 2) (Some 3) None)
                    ts0 idle)) = 5 /\
  trail (fst (guarded (decorator false 10) rc None (env (Some 2) (Some 3) None)
                     ts0 idle)) =
    [(2, Sent (NewTransaction ["a"%string] rc)); (5, Result None)].
Proof.
  split; [reflexivity|]. split; [reflexivity|]. split; [exact I|].
  destruct (guarded_one_deadline
              (decorator false 10) rc None (env (Some 2) (Some 3) None) ts0
              idle _ _ eq_refl eq_refl I eq_refl) as [_ H].
  destruct (H 2 eq_refl ltac:(simpl; lia)) as [H1 _].
  exact (H1 3 eq_refl ltac:(lia) ltac:(reflexivity)).
Defined.

(** C2 fails on the budget of the wait: with [onBackpressure] = 10ns the
    child accepts after 6ns and answers 6ns later, each within 10ns, and
    the message is dropped at the tick, 10ns after the ticker was made:
    the wait had 4ns. *)
Lemma wait_has_the_rest_of_the_deadline :
  accept_after (env (Some 6) (Some 6) None) = Some 6 /\
  result_after (env (Some 6) (Some 6) None) = Some 6 /\
  6 < onBackpressure (decorator false 10) /\
  guarded (decorator false 10) rc None (env (Some 6) (Some 6) None) ts0 idle =
    ({| now := 10; gotBackPressure := true;
        trail := [(6, Sent (NewTransaction ["a"%string] rc));
                 (10, Tick); (10, Reclaim);
                 (10, Log (Warnln "Message dropped due to back pressure."))] |},
     Next (Some (Errorf_d "experienced back pressure beyond: %v" 10))) /\
  snd (guarded (decorator false 10) rc None (env (Some 6) (Some 6) None)
               ts0 idle) <>
    Next (result (env (Some 6) (Some 6) None)).
Proof. repeat split. discriminate. Qed.

Lemma sticky_offer_never_waits_witness :
  0 < onBackpressure (decorator false 10) /\
  gotBackPressure stalled = true /\
  later (accept_after (env (Some 4) (Some 3) None)) 0 /\
  snd (guarded (decorator false 10) rc None (env (Some 4) (Some 3) None)
               ts0 stalled) =
    Next (Some (Errorf_d "experienced back pressure beyond: %v" 10)) /\
  gotBackPressure
    (fst (guarded (decorator false 10) rc None (env (Some 4) (Some 3) None)
                  ts0 stalled)) = true /\
  now (fst (guarded (decorator false 10) rc None (env (Some 4) (Some 3) None)
                    ts0 stalled)) = now stalled /\
  trail (fst (guarded (decorator false 10) rc None (env (Some 4) (Some 3) None)
                     ts0 stalled)) =
    [(100, Log (Warnln "Message dropped due to back pressure."))].
Proof.
  split; [reflexivity|]. split; [reflexivity|]. split; [reflexivity|].
  destruct (sticky_offer_never_waits
              (decorator false 10) rc None (env (Some 4) (Some 3) None) ts0
              stalled _ _ eq_refl eq_refl eq_refl) as [_ [H _]].
  exact (H ltac:(reflexivity)).
Defined.

Lemma backpressure_drop_resolution_witness :
  0 < onBackpressure (decorator false 10) /\
  gotBackPressure
    (fst (deliver (decorator false 10) rc (Some 1000) (env None None None)
                  ts0 {| now := 5; gotBackPressure := false; trail := [] |}))
    = true /\
  later (Some 1000) (15 + 1) /\
  exists evs,
    trail (fst (iteration (decorator false 10) rc (Some 1000)
                         (env None None None) idle)) = trail idle ++ evs /\
    snd (iteration (decorator false 10) rc (Some 1000) (env None None None)
                   idle) = Next tt /\
    acks evs =
      [(ts0, Some (Errorf_d "experienced back pressure beyond: %v" 10))] /\
    In (16, Acked ts0 (Some (Errorf_d "experienced back pressure beyond: %v"
                                      10))) evs.
Proof.
  split; [reflexivity|]. split; [reflexivity|]. split; [reflexivity|].
  destruct (backpressure_drop_resolution
              (decorator false 10) rc (Some 1000) (env None None None) idle
              _ ts0 _ _ _ _ eq_refl eq_refl eq_refl eq_refl eq_refl)
    as [_ [_ [_ [_ [evs [X [_ H]]]]]]].
  exists evs. split; [exact X|].
  destruct (H 1 eq_refl ltac:(lia) eq_refl) as [O [_ [A B]]].
  split; [exact O|]. split; [exact A | exact B].
Defined.


Lemma shutdown_closes_child_first_witness :
  snd (loop (decorator false 0) rc (Some 8) 1000 [env None None None]
            (Some 3) 0) = true /\
  exists pre t t',
    trail (fst (loop (decorator false 0) rc (Some 8) 1000
                    [env None None None] (Some 3) 0)) =
      pre ++ [(t, CloseOut); (t, ChildCloseAsync);
              (t', ChildAwaited 1000); (t', Closed)] /\
    calm pre = true /\
    t <= t' /\
    (0 <= 1000 -> t' <= t + 1000) /\
    closed_at (loop (decorator false 0) rc (Some 8) 1000
                    [env None None None] (Some 3) 0) = Some t' /\
    (forall f, Some 3 = Some f -> 0 <= f <= 1000 -> t' = t + f) /\
    (later (Some 3) 1000 -> 0 <= 1000 -> t' = t + 1000).
Proof.
  destruct (shutdown_closes_child_first
              (decorator false 0) rc (Some 8) 1000 [env None None None]
              (Some 3) 0) as [R [H _]].
  split; [apply R; discriminate|]. apply H. apply R. discriminate.
Defined.

(** C6 fails for a child that needs longer than the bound to close.  The
    context is cancelled at 8ns and [MaximumShutdownWait] is 1000ns; the
    child needs 5000ns to close.  Its [WaitForClose] returns at 1008ns,
    the result is discarded and [closedChan] is closed at 1008ns, so that
    [WaitForClose], called at 9ns, returns [nil] at 1008ns: the child has
    not closed before 5008ns.  It is the same for a child that never
    closes. *)
Lemma closed_before_the_child_has_closed :
  loop (decorator false 0) rc (Some 8) 1000 [env None None None]
       (Some 5000) 0 =
    ({| now := 1008; gotBackPressure := false;
        trail := [(8, CloseOut); (8, ChildCloseAsync);
                 (1008, ChildAwaited 1000); (1008, Closed)] |}, true) /\
  WaitForClose
    (closed_at (loop (decorator false 0) rc (Some 8) 1000
                     [env None None None] (Some 5000) 0)) 2000 9 0 =
    (1008, None) /\
  after 8 (Some 5000) = Some 5008 /\
  1008 < 5008 /\
  closed_at (loop (decorator false 0) rc (Some 8) 1000
                  [env None None None] None 0) = Some 1008 /\
  after 8 None = None.
Proof. repeat split. Qed.

Lemma passthrough_witness :
  onError (decorator false 0) = false /\
  onBackpressure (decorator false 0) <= 0 /\
  snd (iteration (decorator false 0) rc None
                 (env (Some 2) (Some 3000000000) (Some rejected)) idle)
    = Next tt /\
  now (fst (iteration (decorator false 0) rc None
                      (env (Some 2) (Some 3000000000) (Some rejected)) idle))
    = 3000000008 /\
  gotBackPressure
    (fst (iteration (decorator false 0) rc None
                    (env (Some 2) (Some 3000000000) (Some rejected)) idle))
    = false /\
  trail (fst (iteration (decorator false 0) rc None
                       (env (Some 2) (Some 3000000000) (Some rejected)) idle))
    = [(7, Sent (NewTransaction ["a"%string] rc));
       (3000000007, Result (Some rejected));
       (3000000008, Acked ts0 (Some rejected))].
Proof.
  split; [reflexivity|]. split; [discriminate|].
  destruct (passthrough
              (decorator false 0) rc None
              (env (Some 2) (Some 3000000000) (Some rejected)) idle ts0 2 1
              _ _ eq_refl ltac:(discriminate) eq_refl ltac:(discriminate)
              eq_refl ltac:(discriminate) eq_refl ltac:(discriminate) eq_refl)
    as [H _].
  exact (H 3000000000 eq_refl ltac:(discriminate) I).
Defined.

(** C7 fails on the empty string: [time.ParseDuration] refuses it, and
    [newDropOn], which does not parse it, makes a decorator without back
    pressure. *)
Lemma empty_back_pressure_is_not_parsed :
  snd (GoTime.ParseDuration "") = Some GoTime.invalid /\
  newDropOn GoTime.ParseDuration {| Error := false; BackPressure := "" |}
            (@None chan) 0%nat =
    (Some {| onError := false;
             onBackpressure := 0;
             wrapped := None;
             transactionsIn := None;
             transactionsOut := 0%nat;
             closedChan := 1%nat |}, None).
Proof. split; reflexivity. Qed.

Lemma construction_errors_witness :
  snd (GoTime.ParseDuration "soon") = Some GoTime.invalid /\
  newDropOn GoTime.ParseDuration {| Error := false; BackPressure := "soon" |}
            (@None chan) 0%nat =
    (None, Some (Errorf_e "failed to parse back_pressure duration: %w"
                          GoTime.invalid)) /\
  CacheWriter.NewCache (cache_conf unclosed "") mgr0 =
    (None, Some (Errorf_e "failed to parse key expression: %v"
                          (Foreign "expected closing bracket"))) /\
  CacheWriter.NewCache (cache_conf "${!json()}" unclosed) mgr0 =
    (None, Some (Errorf_e "failed to parse ttl expression: %v"
                          (Foreign "expected closing bracket"))).
Proof.
  split; [reflexivity|]. split; [|split].
  - exact (proj1 construction_errors (option chan) GoTime.ParseDuration
                 {| Error := false; BackPressure := "soon" |} None 0%nat
                 GoTime.invalid ltac:(discriminate) eq_refl).
  - exact (proj1 (proj2 construction_errors string (cache_conf unclosed "")
                        mgr0) _ eq_refl).
  - exact (proj1 (proj2 (proj2 construction_errors string
                               (cache_conf "${!json()}" unclosed) mgr0))
                 _ eq_refl eq_refl).
Defined.




(** * Further properties *)

Import DropOnMore.

(** ** Whole runs of the loop *)

Ltac shaped :=
  intros E; inversion E; subst; clear E; eexists;
  split; [ first [ apply extends_refl
                 | unfold extends; cbn; rewrite <- ?app_assoc; reflexivity ]
         | unfold delivery, kinds, drop_result, drop_warning; cbn;
           first [ left; split; [intros ? ?; discriminate | auto; fail]
                 | right; left; eexists; split; reflexivity
                 | right; right; repeat split; auto 6 ] ].

Lemma flat_map_kinds {B : Type} (f : event -> list B) (tr : trace) :
  flat_map (fun x => f (snd x)) tr =
  flat_map (fun x => f (snd x)) (untimed (kinds tr)).
Proof.
  induction tr as [|[t ev] r IH]; [reflexivity|].
  cbn. rewrite IH. reflexivity.
Qed.

Lemma acks_untimed tr : acks tr = acks (untimed (kinds tr)).
Proof.
  exact (flat_map_kinds (fun ev => match ev with
                                   | Acked t r => [(t, r)]
                                   | _ => []
                                   end) tr).
Qed.

Lemma sents_untimed tr : sents tr = sents (untimed (kinds tr)).
Proof.
  exact (flat_map_kinds (fun ev => match ev with
                                   | Sent t => [t]
                                   | _ => []
                                   end) tr).
Qed.

Lemma results_untimed tr : results tr = results (untimed (kinds tr)).
Proof.
  exact (flat_map_kinds (fun ev => match ev with
                                   | Result r => [r]
                                   | _ => []
                                   end) tr).
Qed.

Lemma reclaims_untimed tr : reclaims tr = reclaims (untimed (kinds tr)).
Proof.
  unfold reclaims. induction tr as [|[t ev] r IH]; [reflexivity|].
  cbn. destruct ev; cbn; auto.
Qed.

Lemma untimed_app a b : untimed (a ++ b) = untimed a ++ untimed b.
Proof. apply map_app. Qed.

Lemma sents_app a b : sents (a ++ b) = sents a ++ sents b.
Proof. apply flat_map_app. Qed.

Lemma results_app a b : results (a ++ b) = results a ++ results b.
Proof. apply flat_map_app. Qed.

Lemma reclaims_app a b : reclaims (a ++ b) = (reclaims a + reclaims b)%nat.
Proof. unfold reclaims. rewrite filter_app. apply length_app. Qed.

(** The cases of [turn], with the events written out. *)
Ltac turn_cases T :=
  let o2 := fresh "o2" in
  let dk := fresh "dk" in
  destruct T as [o2 [? [dk [[[? [?|?]]|[[? [? ?]]|[? [? [? [?|[?|?]]]]]]] T]]]];
  (destruct T as [[? [? ?]]|[res [? [[? ?]|[? ?]]]]]);
  subst;
  try match goal with
      | H : forall r, Next ?x <> Next r |- _ => destruct (H x eq_refl)
      end;
  try discriminate;
  try match goal with
      | H : Next _ = Next _ |- _ => injection H as ?; subst
      end.

Lemma subseq_nil_l {A : Type} (l : list A) : subseq [] l.
Proof. induction l; constructor; auto. Qed.

Section MoreLoopFacts.
Context {W : Type}.
Variable d : dropOn W.
Variable resChan : chan.
Variable cancel : option Time.
Variable MaximumShutdownWait : Duration.

Lemma guarded_delivery e ts s s' o :
  0 < onBackpressure d ->
  guarded d resChan cancel e ts s = (s', o) ->
  exists evs, extends s s' evs /\
    delivery d (NewTransaction (Payload ts) resChan) o (gotBackPressure s')
             (kinds evs).
Proof.
  intros P. unfold guarded, offer, await, dropped.
  destruct (gotBackPressure s) eqn:G.
  - rewrite select_default_one.
    destruct (after _ _) as [t|]; [destruct (t <=? now s)|];
      cbn -[select Z.add]; repeat (rewrite G; cbn -[select Z.add]).
    + destruct (select _ _ _) as [[t' []]|]; cbn -[Z.add]; shaped.
    + shaped.
    + shaped.
  - destruct (select _ _ _) as [[t []]|]; cbn -[select Z.add]; try shaped.
    destruct (select _ _ _) as [[t' []]|]; cbn -[Z.add]; shaped.
Qed.

Lemma plain_delivery e ts s s' o :
  onBackpressure d <= 0 ->
  plain resChan cancel e ts s = (s', o) ->
  exists evs, extends s s' evs /\
    delivery d (NewTransaction (Payload ts) resChan) o (gotBackPressure s')
             (kinds evs) /\
    gotBackPressure s' = gotBackPressure s.
Proof.
  intros P. unfold plain.
  destruct (select _ _ _) as [[t []]|]; cbn -[select Z.add];
    try (intros E; inversion E; subst; clear E; exists [];
         split; [apply extends_at || apply extends_refl|];
         split; [left; split; [intros ? ?; discriminate | auto] | reflexivity]).
  destruct (select _ _ _) as [[t' []]|]; cbn -[Z.add];
    intros E; inversion E; subst; clear E; eexists;
    (split; [unfold extends; cbn; rewrite <- ?app_assoc; reflexivity|]);
    (split; [|reflexivity]); unfold delivery, kinds; cbn;
    first [ left; split; [intros ? ?; discriminate | auto; fail]
          | right; left; eexists; split; reflexivity ].
Qed.

Lemma deliver_delivery e ts s s' o :
  deliver d resChan cancel e ts s = (s', o) ->
  exists evs, extends s s' evs /\
    delivery d (NewTransaction (Payload ts) resChan) o (gotBackPressure s')
             (kinds evs) /\
    (onBackpressure d <= 0 -> gotBackPressure s' = gotBackPressure s).
Proof.
  unfold deliver. destruct (Z.ltb_spec 0 (onBackpressure d)) as [P|P]; intros D.
  - destruct (guarded_delivery _ _ _ _ _ P D) as [evs [X Y]].
    exists evs. split; [exact X|]. split; [exact Y|]. lia.
  - destruct (plain_delivery _ _ _ _ _ P D) as [evs [X [Y Z]]]. eauto.
Qed.

Lemma receive_cases e s s' o :
  receive cancel e s = (s', o) ->
  trail s' = trail s /\ gotBackPressure s' = gotBackPressure s /\
  (o = Quit \/ exists ts, o = Next ts /\ in_val e = Some ts).
Proof.
  unfold receive. destruct (select _ _ _) as [[t [[ts|]|]]|] eqn:S;
    intros [= <- <-]; cbn; rewrite ?app_nil_r.
  - split; [reflexivity|]. split; [reflexivity|]. right. exists ts.
    split; [reflexivity|]. chosen S. congruence.
  - auto.
  - auto.
  - unblock S.
Qed.

Lemma absorb_cases res s :
  extends s (fst (absorb d res s)) (map (pair (now s)) (absorbed d res)) /\
  snd (absorb d res s) = verdict d res /\
  gotBackPressure (fst (absorb d res s)) = gotBackPressure s.
Proof.
  unfold absorb, absorbed, verdict.
  destruct res as [x|]; [destruct (onError d)|];
    cbn; auto using extends_refl, extends_at.
Qed.

Lemma kinds_app a b : kinds (a ++ b) = kinds a ++ kinds b.
Proof. apply map_app. Qed.

Lemma kinds_stamp t ks : kinds (map (pair t) ks) = ks.
Proof.
  unfold kinds. rewrite map_map. cbn. apply map_id.
Qed.

Lemma iteration_turn e s s' o :
  iteration d resChan cancel e s = (s', o) ->
  exists evs, extends s s' evs /\
    ((o = Quit /\ evs = []) \/
     exists ts, in_val e = Some ts /\ turn d resChan ts o (kinds evs)).
Proof.
  unfold iteration.
  destruct (receive cancel e s) as [s1 o1] eqn:R.
  apply receive_cases in R. destruct R as [T1 [_ [->|[ts [-> V]]]]].
  { intros [= <- <-]. exists [].
    split; [unfold extends; rewrite app_nil_r; auto|].
    auto. }
  destruct (deliver d resChan cancel e ts s1) as [s2 o2] eqn:D.
  apply deliver_delivery in D. destruct D as [ev1 [X1 [Y1 _]]].
  assert (X1' : extends s s2 ev1) by (unfold extends in *; congruence).
  destruct o2 as [res| |].
  - pose proof (absorb_cases res s2) as [X2 [V2 _]].
    destruct (absorb d res s2) as [s3 res']. simpl in X2, V2. subst res'.
    destruct (Ack cancel e ts (verdict d res) s3) as [s4 o4] eqn:K.
    apply Ack_events in K.
    destruct K as [[t [X4 ->]]|[X4 [->|[-> C]]]]; cbn; rewrite ?C; cbn;
      intros [= <- <-]; eexists;
      (split; [eapply extends_trans; [eapply extends_trans; eauto | eauto]|]);
      right; exists ts; (split; [exact V|]);
      exists (Next res), (gotBackPressure s2), (kinds ev1);
      (split; [exact Y1|]); right; exists res; (split; [reflexivity|]);
      rewrite !kinds_app, kinds_stamp; cbn; rewrite ?app_nil_r, <- ?app_assoc;
      first [ left; split; [reflexivity | reflexivity]
            | right; split; [reflexivity | discriminate] ].
  - intros [= <- <-]. exists ev1. split; [exact X1'|]. right. exists ts.
    split; [exact V|]. exists Quit, (gotBackPressure s2), (kinds ev1).
    split; [exact Y1|]. left. split; [discriminate|].
    split; [reflexivity|discriminate].
  - intros [= <- <-]. exists ev1. split; [exact X1'|]. right. exists ts.
    split; [exact V|]. exists Stuck, (gotBackPressure s2), (kinds ev1).
    split; [exact Y1|]. left. split; [discriminate|].
    split; [reflexivity|discriminate].
Qed.

Lemma rounds_run envs : forall s s' b,
  rounds d resChan cancel envs s = (s', b) ->
  exists evs, extends s s' evs /\ run d resChan envs (kinds evs).
Proof.
  induction envs as [|e rest IH]; simpl; intros s s' b.
  - destruct (select _ _ _) as [[t c]|]; intros [= <- <-]; exists [];
      (split; [apply extends_at || apply extends_refl | constructor]).
  - destruct (iteration d resChan cancel e s) as [s1 o] eqn:I.
    apply iteration_turn in I. destruct I as [ev1 [X1 [[-> ->]|[ts [V T]]]]].
    + intros [= <- <-]. exists []. split; [exact X1 | constructor].
    + destruct o as [[]| |].
      * intros R. apply IH in R. destruct R as [ev2 [X2 R2]].
        exists (ev1 ++ ev2). split; [eauto using extends_trans|].
        rewrite kinds_app. eapply run_on; eauto.
      * intros [= <- <-]. exists ev1. split; [exact X1|].
        eapply run_last; eauto. discriminate.
      * intros [= <- <-]. exists ev1. split; [exact X1|].
        eapply run_last; eauto. discriminate.
Qed.

(** The trace of [loop]: the iterations, and when the loop returns the
    four events of the deferred function. *)
Lemma loop_run envs finish start :
  exists evs closing,
    trail (fst (loop d resChan cancel MaximumShutdownWait envs finish start))
      = evs ++ closing /\
    run d resChan envs (kinds evs) /\
    (closing = [] \/
     exists t t', closing = [(t, CloseOut); (t, ChildCloseAsync);
                             (t', ChildAwaited MaximumShutdownWait);
                             (t', Closed)]).
Proof.
  unfold loop. destruct (rounds _ _ _ _ _) as [s b] eqn:R.
  apply rounds_run in R. destruct R as [evs [X R]].
  unfold extends in X; simpl in X. destruct b; simpl.
  - exists evs. eexists. rewrite X. split; [reflexivity|]. split; [exact R|].
    right. eauto.
  - exists evs, []. rewrite app_nil_r. auto.
Qed.

Lemma turn_acks ts o ks :
  turn d resChan ts o ks ->
  (o = Next tt /\ exists r, acks (untimed ks) = [(ts, r)]) \/
  (o <> Next tt /\ acks (untimed ks) = []).
Proof.
  intros T. turn_cases T.
  all: unfold absorbed, drop_warning; unfold verdict;
       repeat match goal with
              | |- context [match ?r with Some _ => _ | None => _ end] =>
                  destruct r
              | |- context [if ?b then _ else _] => destruct b
              end; cbn; eauto.
Qed.

Lemma turn_sents ts o ks :
  turn d resChan ts o ks ->
  sents (untimed ks) = [] \/
  sents (untimed ks) = [NewTransaction (Payload ts) resChan].
Proof.
  intros T. turn_cases T.
  all: unfold absorbed, drop_warning; unfold verdict;
       repeat match goal with
              | |- context [match ?r with Some _ => _ | None => _ end] =>
                  destruct r
              | |- context [if ?b then _ else _] => destruct b
              end; cbn; eauto.
Qed.

Lemma turn_pulls ts o ks :
  turn d resChan ts o ks ->
  let pulled :=
    (List.length (results (untimed ks)) + reclaims (untimed ks))%nat in
  let handed := List.length (sents (untimed ks)) in
  (pulled <= handed <= pulled + 1)%nat /\ (o = Next tt -> handed = pulled).
Proof.
  intros T. turn_cases T.
  all: unfold absorbed, drop_warning, reclaims; unfold verdict;
       repeat match goal with
              | |- context [match ?r with Some _ => _ | None => _ end] =>
                  destruct r
              | |- context [if ?b then _ else _] => destruct b
              end; cbn; split; try lia; try congruence.
Qed.

Lemma arrivals_cons e rest ts :
  in_val e = Some ts -> arrivals (e :: rest) = ts :: arrivals rest.
Proof. intros V. unfold arrivals. cbn. rewrite V. reflexivity. Qed.

Lemma run_acks envs ks :
  run d resChan envs ks ->
  exists k, map fst (acks (untimed ks)) = firstn k (arrivals envs).
Proof.
  induction 1 as [|e rest|e rest ts o ks V T N|e rest ts ks ks' V T R [k IH]].
  - exists 0%nat. reflexivity.
  - exists 0%nat. reflexivity.
  - exists 0%nat. destruct (turn_acks _ _ _ T) as [[-> _]|[_ ->]];
      [congruence | reflexivity].
  - exists (S k).
    rewrite (arrivals_cons _ _ _ V), untimed_app, acks_app, map_app.
    destruct (turn_acks _ _ _ T) as [[_ [r ->]]|[C _]]; [|congruence].
    cbn. rewrite IH. reflexivity.
Qed.

Lemma run_sents envs ks :
  run d resChan envs ks ->
  subseq (sents (untimed ks))
         (map (fun ts => NewTransaction (Payload ts) resChan) (arrivals envs)).
Proof.
  induction 1 as [|e rest|e rest ts o ks V T N|e rest ts ks ks' V T R IH].
  - constructor.
  - apply subseq_nil_l.
  - rewrite (arrivals_cons _ _ _ V). cbn.
    destruct (turn_sents _ _ _ T) as [->| ->];
      [apply subseq_nil_l | apply subseq_keep, subseq_nil_l].
  - rewrite (arrivals_cons _ _ _ V), untimed_app, sents_app. cbn.
    destruct (turn_sents _ _ _ T) as [->| ->]; cbn;
      [apply subseq_skip | apply subseq_keep]; exact IH.
Qed.

Lemma run_pulls envs ks :
  run d resChan envs ks ->
  let pulled :=
    (List.length (results (untimed ks)) + reclaims (untimed ks))%nat in
  let handed := List.length (sents (untimed ks)) in
  (pulled <= handed <= pulled + 1)%nat.
Proof.
  induction 1 as [|e rest|e rest ts o ks V T N|e rest ts ks ks' V T R IH];
    cbv zeta in *.
  - cbn. lia.
  - cbn. lia.
  - apply (turn_pulls _ _ _ T).
  - rewrite untimed_app, sents_app, results_app, reclaims_app, !length_app.
    destruct (turn_pulls _ _ _ T) as [_ E]. specialize (E eq_refl).
    cbv zeta in E. lia.
Qed.

Lemma turn_plain ts o ks :
  onError d = false -> onBackpressure d <= 0 ->
  turn d resChan ts o ks ->
  let out := NewTransaction (Payload ts) resChan in
  (o = Next tt /\ exists r, ks = [Sent out; Result r; Acked ts r]) \/
  (o <> Next tt /\
   (ks = [] \/ ks = [Sent out] \/ exists r, ks = [Sent out; Result r])).
Proof.
  intros OE BP T. turn_cases T; try lia.
  all: unfold absorbed, verdict; rewrite ?OE;
       repeat match goal with
              | |- context [match ?r with Some _ => _ | None => _ end] =>
                  destruct r
              end; cbn; eauto 7.
Qed.

Lemma run_plain envs ks :
  onError d = false -> onBackpressure d <= 0 ->
  run d resChan envs ks ->
  forallb forwards_only ks = true /\
  (exists j, sents (untimed ks) =
             firstn j (map (fun ts => NewTransaction (Payload ts) resChan)
                           (arrivals envs))) /\
  (exists k, map snd (acks (untimed ks)) = firstn k (results (untimed ks))).
Proof.
  intros OE BP.
  induction 1 as [|e rest|e rest ts o ks V T N
                  |e rest ts ks ks' V T R [IF [[j IS] [k IA]]]].
  - split; [reflexivity|]. split; exists 0%nat; reflexivity.
  - split; [reflexivity|]. split; exists 0%nat; reflexivity.
  - rewrite (arrivals_cons _ _ _ V).
    destruct (turn_plain _ _ _ OE BP T) as [[C _]|[_ [->|[->|[r ->]]]]];
      [congruence| | |]; (split; [reflexivity|]); split;
      first [ exists 0%nat; reflexivity | exists 1%nat; reflexivity ].
  - rewrite (arrivals_cons _ _ _ V).
    destruct (turn_plain _ _ _ OE BP T) as [[_ [r ->]]|[C _]]; [|congruence].
    split; [cbn; exact IF|]. split.
    + exists (S j). rewrite untimed_app, sents_app, IS. reflexivity.
    + exists (S k).
      rewrite untimed_app, acks_app, results_app, map_app, IA. reflexivity.
Qed.

(** The deferred function acknowledges, sends and pulls nothing. *)
Lemma closing_silent (closing : trace) :
  closing = [] \/
  (exists t t', closing = [(t, CloseOut); (t, ChildCloseAsync);
                          (t', ChildAwaited MaximumShutdownWait);
                          (t', Closed)]) ->
  acks closing = [] /\ sents closing = [] /\ results closing = [] /\
  reclaims closing = 0%nat /\ forallb forwards_only (kinds closing) = true.
Proof.
  intros [->|[t [t' ->]]]; repeat split.
Qed.

(** X1.  The transactions that a run of the loop acknowledges are the first
    transactions that arrived on [transactionsIn], in the order of their
    arrival: none is skipped, none is acknowledged twice, none ahead of an
    earlier one. *)
Theorem loop_acknowledges_in_order envs finish start :
  exists k,
    map fst (acks (trail (fst (loop d resChan cancel MaximumShutdownWait
                                    envs finish start)))) =
    firstn k (arrivals envs).
Proof.
  destruct (loop_run envs finish start) as [evs [closing [-> [R C]]]].
  destruct (closing_silent _ C) as [A _].
  rewrite acks_app, A, app_nil_r, acks_untimed. apply run_acks, R.
Qed.

(** X2.  What the child receives are transactions made from the payloads of
    the arrivals, in the order of arrival and each at most once, and every
    one of them answers on the loop's [resChan], never on the response
    channel of the producer. *)
Theorem loop_forwards_in_order envs finish start :
  subseq (sents (trail (fst (loop d resChan cancel MaximumShutdownWait
                                  envs finish start))))
         (map (fun ts => NewTransaction (Payload ts) resChan)
              (arrivals envs)).
Proof.
  destruct (loop_run envs finish start) as [evs [closing [-> [R C]]]].
  destruct (closing_silent _ C) as [_ [S _]].
  rewrite sents_app, S, app_nil_r, sents_untimed. apply run_sents, R.
Qed.

(** X3.  Every transaction handed to the child has its response pulled from
    [resChan], by the loop or by the goroutine that a drop starts, except
    at most one, the one in flight when the loop returns; and no response
    is pulled that no transaction stands for. *)
Theorem loop_pulls_every_response envs finish start :
  let tr := trail (fst (loop d resChan cancel MaximumShutdownWait
                             envs finish start)) in
  let pulled := (List.length (results tr) + reclaims tr)%nat in
  let handed := List.length (sents tr) in
  (pulled <= handed <= pulled + 1)%nat.
Proof.
  cbv zeta.
  destruct (loop_run envs finish start) as [evs [closing [-> [R C]]]].
  destruct (closing_silent _ C) as [_ [S [Rs [Rc _]]]].
  rewrite sents_app, results_app, reclaims_app, S, Rs, Rc, !app_nil_r,
    Nat.add_0_r, sents_untimed, results_untimed, reclaims_untimed.
  apply (run_pulls _ _ R).
Qed.

(** X4.  With [onError] false and no back pressure duration, a run of the
    loop never ticks, never starts a goroutine and never logs; the child
    receives the first arrivals, none left out; and the acknowledgements
    carry the results of the child, unchanged and in order. *)
Theorem plain_loop_only_forwards envs finish start :
  onError d = false ->
  onBackpressure d <= 0 ->
  let tr := trail (fst (loop d resChan cancel MaximumShutdownWait
                             envs finish start)) in
  forallb forwards_only (kinds tr) = true /\
  (exists j, sents tr =
             firstn j (map (fun ts => NewTransaction (Payload ts) resChan)
                           (arrivals envs))) /\
  (exists k, map snd (acks tr) = firstn k (results tr)).
Proof.
  intros OE BP. cbv zeta.
  destruct (loop_run envs finish start) as [evs [closing [-> [R C]]]].
  destruct (closing_silent _ C) as [A [S [Rs [_ F]]]].
  destruct (run_plain _ _ OE BP R) as [F' [J K]].
  rewrite kinds_app, forallb_app, F, F', sents_app, acks_app, results_app,
    A, S, Rs, !app_nil_r, sents_untimed, acks_untimed, results_untimed.
  auto.
Qed.

(** *** A stalled child *)

Lemma refused_turn e s s' o :
  0 < onBackpressure d -> cancel = None ->
  gotBackPressure s = true -> refused e ->
  iteration d resChan cancel e s = (s', o) ->
  o = Next tt /\ gotBackPressure s' = true /\
  now s' = now s + idle_time e /\
  exists evs, trail s' = trail s ++ evs /\ kinds evs = refusals d [e].
Proof.
  intros P C G [V [I0 [A [k [K K0]]]]].
  destruct (in_val e) as [ts|] eqn:Vt; [clear V|congruence].
  unfold iteration, receive, deliver, guarded, offer, await, dropped, absorb,
    Ack, idle_time, refusals, drop_result, drop_warning.
  destruct (Z.ltb_spec 0 (onBackpressure d)) as [_|?]; [|lia].
  rewrite Vt, K, C. cbn -[select select_default Z.add].
  destruct (select _ _ _) as [[t0 c0]|] eqn:S0; [|unblock S0].
  destruct c0; timed S0. cbn -[select select_default Z.add].
  rewrite G, select_default_one. unfold later in A.
  destruct (accept_after e) as [a|]; cbn -[select Z.add].
  - destruct (Z.leb_spec (Z.max (now s) (now s + in_after e) + a)
                         (Z.max (now s) (now s + in_after e))); [lia|].
    cbn -[select Z.add]. rewrite ?G. cbn -[select Z.add].
    destruct (onError d); cbn -[select Z.add];
      (destruct (select _ _ _) as [[t1 c1]|] eqn:S1; [|unblock S1]);
      destruct c1; timed S1; cbn -[Z.add]; intros [= <- <-]; cbn -[Z.add];
      rewrite Vt, ?Z.max_r by lia;
      (repeat split; try lia); eexists;
      (split; [rewrite <- ?app_assoc; reflexivity | reflexivity]).
  - rewrite ?G. cbn -[select Z.add].
    destruct (onError d); cbn -[select Z.add];
      (destruct (select _ _ _) as [[t1 c1]|] eqn:S1; [|unblock S1]);
      destruct c1; timed S1; cbn -[Z.add]; intros [= <- <-]; cbn -[Z.add];
      rewrite Vt, ?Z.max_r by lia;
      (repeat split; try lia); eexists;
      (split; [rewrite <- ?app_assoc; reflexivity | reflexivity]).
Qed.

(** X5.  With a back pressure duration, the flag [gotBackPressure] set and no
    shutdown, transactions that the child cannot receive at once are
    dropped one after the other without any wait: the loop spends the time
    of the arrivals and of the acknowledgements only, logs the warning and
    acknowledges the drop result for each of them, and the flag stays
    set. *)
Theorem stalled_child_costs_no_wait envs : forall s s' b,
  0 < onBackpressure d -> cancel = None ->
  gotBackPressure s = true -> Forall refused envs ->
  rounds d resChan cancel envs s = (s', b) ->
  gotBackPressure s' = true /\
  now s' = now s + fold_right Z.add 0 (map idle_time envs) /\
  exists evs, trail s' = trail s ++ evs /\ kinds evs = refusals d envs.
Proof.
  induction envs as [|e rest IH]; intros s s' b P C G F.
  - simpl. rewrite C. destruct (select _ _ _) as [[t c]|] eqn:S.
    + chosen S.
    + intros [= <- <-]. split; [exact G|]. split; [lia|].
      exists []. rewrite app_nil_r. auto.
  - inversion F as [|e' rest' Fe Fr]; subst e' rest'. simpl.
    destruct (iteration d resChan cancel e s) as [s1 o] eqn:I.
    destruct (refused_turn _ _ _ _ P C G Fe I) as [-> [G1 [N1 [ev1 [T1 K1]]]]].
    intros R.
    destruct (IH _ _ _ P C G1 Fr R) as [G2 [N2 [ev2 [T2 K2]]]].
    split; [exact G2|]. split; [lia|].
    exists (ev1 ++ ev2). rewrite T2, T1, app_assoc. split; [reflexivity|].
    rewrite kinds_app, K1, K2. unfold refusals. cbn. rewrite app_nil_r.
    reflexivity.
Qed.

(** X6.  With a timeout that is not negative, [WaitForClose] returns within
    the timeout: [nil] at the instant at which [closedChan] is closed, or
    [ErrTimeout] when the timeout has elapsed, and then [closedChan] was
    not closed before. *)
Theorem WaitForClose_is_bounded closed timeout t pick tr e :
  0 <= timeout ->
  DropOn.WaitForClose closed timeout t pick = (tr, e) ->
  t <= tr <= t + timeout /\
  ((e = None /\ exists c, closed = Some c /\ tr = Z.max t c) \/
   (e = Some ErrTimeout /\ tr = t + timeout /\
    forall c, closed = Some c -> t + timeout <= Z.max t c)).
Proof.
  intros P. unfold DropOn.WaitForClose.
  destruct (select _ _ _) as [[t' x]|] eqn:S; [|unblock S].
  intros [= -> ->]. apply select_sound in S. destruct S as [[u [I ->]] L].
  destruct closed as [c|]; simpl in I, L; unfold due in *.
  - destruct I as [I|[I|[]]]; injection I as <- <-.
    + split; [lia|]. left. eauto.
    + split; [lia|]. right. split; [reflexivity|]. split; [lia|].
      intros c' [= <-]. lia.
  - destruct I as [I|[I|[]]]; [discriminate|]. injection I as <- <-.
    split; [lia|]. right. split; [reflexivity|]. split; [lia|].
    intros c' [=].
Qed.

(** X7.  When the first thing the loop gets from [transactionsIn] is its
    closing, the run is the deferred shutdown alone, whatever would have
    come next: nothing is sent, logged or acknowledged. *)
Theorem closed_input_shuts_down e rest finish start :
  in_val e = None ->
  exists t t',
    loop d resChan cancel MaximumShutdownWait (e :: rest) finish start =
    ({| now := t';
        gotBackPressure := false;
        trail := [(t, CloseOut); (t, ChildCloseAsync);
                  (t', ChildAwaited MaximumShutdownWait); (t', Closed)] |},
     true) /\
    start <= t <= t'.
Proof.
  intros V. unfold loop, rounds, iteration, receive. rewrite V.
  cbn -[select Z.add].
  destruct (select _ _ _) as [[t c]|] eqn:S; [|unblock S].
  assert (T : start <= t).
  { apply select_sound in S. destruct S as [[u [_ ->]] _]. unfold due. lia. }
  pose proof (child_WaitForClose_bounds finish MaximumShutdownWait t) as [B _].
  destruct c as [[ts|]|]; [chosen S; discriminate| |];
    exists t, (child_WaitForClose finish MaximumShutdownWait t);
    (split; [reflexivity | lia]).
Qed.

End MoreLoopFacts.

(** ** More on construction and binding *)

(** X8.  The registered constructor either builds a decorator that is not
    bound yet, around the child that [New] made and with the conditions
    of the configuration, or returns no decorator and an error: for a
    configuration without child, the error of [New], or the wrapped error
    of the duration parser. *)
Theorem constructor_result (C W : Type) (New : C -> W * err)
        (parse : string -> Duration * err) (conf : DropOnConfig C)
        (mk : chan) :
  (exists out d0,
     Output conf = Some out /\
     snd (New out) = None /\
     (BackPressure (Conditions conf) = EmptyString \/
      snd (parse (BackPressure (Conditions conf))) = None) /\
     constructor New parse conf mk = (Some d0, None) /\
     onError d0 = Error (Conditions conf) /\
     wrapped d0 = fst (New out) /\
     transactionsIn d0 = None /\
     onBackpressure d0 =
       (if string_dec (BackPressure (Conditions conf)) EmptyString
        then 0
        else fst (parse (BackPressure (Conditions conf))))) \/
  (exists e,
     constructor New parse conf mk = (None, Some e) /\
     (Output conf = None \/
      (exists out, Output conf = Some out /\ snd (New out) = Some e) \/
      (BackPressure (Conditions conf) <> EmptyString /\
       exists x, snd (parse (BackPressure (Conditions conf))) = Some x /\
                 e = Errorf_e "failed to parse back_pressure duration: %w" x))).
Proof.
  unfold constructor. destruct (Output conf) as [out|] eqn:O.
  2:{ right. eexists. split; [reflexivity|]. auto. }
  destruct (New out) as [w [e|]] eqn:N.
  { right. exists e. split; [reflexivity|]. right. left. exists out.
    rewrite N. auto. }
  unfold newDropOn.
  destruct (BackPressure (Conditions conf)) as [|c r] eqn:B; cbn.
  { left. exists out. eexists. rewrite N. cbn. repeat split; eauto. }
  destruct (parse (String c r)) as [bp [x|]] eqn:P; cbn.
  - right. eexists. split; [reflexivity|]. right. right.
    split; [discriminate|]. exists x. auto.
  - left. exists out. eexists. rewrite N. cbn.
    repeat split; eauto.
Qed.

(** X9.  On a decorator that is not bound, [Consume] returns what the
    child's [Consume] returns for [transactionsOut]; it starts the loop
    and keeps the input channel only when that is [nil]; after an error
    the decorator is still unbound, and a later [Consume] asks the child
    again. *)
Theorem Consume_starts_the_loop_on_success (W : Type) (child : Streamed W)
        (d : dropOn W) (ts : option chan) (d1 : dropOn W) (e : err)
        (started : list goroutine) :
  transactionsIn d = None ->
  Consume d ts = (d1, e, started) ->
  e = snd (Streamed_Consume (wrapped d) (transactionsOut d)) /\
  wrapped d1 = fst (Streamed_Consume (wrapped d) (transactionsOut d)) /\
  (e = None -> started = [go_loop] /\ transactionsIn d1 = ts) /\
  (e <> None ->
   started = [] /\ transactionsIn d1 = None /\
   forall ts2,
     snd (fst (Consume d1 ts2)) =
     snd (Streamed_Consume (wrapped d1) (transactionsOut d))).
Proof.
  intros U. unfold Consume at 1. rewrite U.
  destruct (Streamed_Consume (wrapped d) (transactionsOut d)) as [w [x|]];
    intros [= <- <- <-]; cbn; (split; [reflexivity|]); (split; [reflexivity|]);
    split; try congruence; auto.
  intros _. split; [reflexivity|]. split; [reflexivity|]. intros ts2.
  unfold Consume. cbn.
  destruct (Streamed_Consume w (transactionsOut d)) as [w2 [y|]]; reflexivity.
Qed.

(** ** More on the websocket writer *)

Section WebsocketFacts.
Import Websocket WebsocketMore.
Context {T U H : Type}.
Variable url_Parse : string -> U * err.
Variable no_headers : H.
Variable Sign : WebsocketConfig -> U -> H -> err.
Variable Dial : option (option T) -> string -> H -> option Conn * err.
Variable WriteMessage : Conn -> Z -> string -> err.
Variable Iter : Batch -> (nat -> string -> err) -> err.
Variable TLS_Get : WebsocketConfig -> option T * err.


(** X10.  [WriteWithContext] never returns [websocket.ErrCloseSent], and
    changes neither the configuration nor the TLS configuration; when it
    succeeds the writer had a connection and keeps it; without a
    connection it returns [ErrNotConnected] and changes nothing. *)
Theorem Write_never_reports_close_sent (w : Websocket T) msg w' e :
  WriteWithContext WriteMessage Iter w msg = (w', e) ->
  e <> Some ErrCloseSent /\
  conf w' = conf w /\ tlsConf w' = tlsConf w /\
  (e = None -> w' = w /\ client w <> None) /\
  (client w = None -> e = Some ErrNotConnected /\ w' = w).
Proof.
  unfold WriteWithContext, getWS.
  destruct (client w) as [c|] eqn:C.
  - destruct (Iter _ _) as [x|].
    + destruct (error_eq_dec x ErrCloseSent) as [->|N];
        intros [= <- <-]; cbn; repeat split; try congruence; discriminate.
    + intros [= <- <-]. repeat split; congruence.
  - intros [= <- <-]. repeat split; try congruence; discriminate.
Qed.

Lemma Connect_cases (w : Websocket T) w' e effs :
  ConnectWithContext url_Parse no_headers Sign Dial w = (w', e, effs) ->
  let url := URL (conf w) in
  (e <> None -> w' = w /\ (effs = [] \/ effs = [Dialed url])) /\
  (e = None ->
   (client w <> None /\ w' = w /\ effs = []) \/
   (client w = None /\ w' = with_client w (client w') /\
    effs = [Dialed url; go_reader (client w')])).
Proof.
  unfold ConnectWithContext. cbv zeta.
  destruct (client w) as [c|] eqn:C.
  { intros [= <- <- <-]. split; [congruence|]. intros _. left.
    repeat split. discriminate. }
  destruct (url_Parse _) as [purl [e1|]].
  { intros [= <- <- <-]. split; [auto|discriminate]. }
  destruct (Sign _ _ _) as [e2|].
  { intros [= <- <- <-]. split; [auto|discriminate]. }
  destruct (TLS_Enabled _); destruct (Dial _ _ _) as [c' [e3|]];
    intros [= <- <- <-]; (split; [intros N; try congruence; auto|]);
    try discriminate; intros _; right; cbn; auto.
Qed.

(** X11.  [ConnectWithContext] is all or nothing: with an error the writer is
    unchanged, no reader was started and at most one dial was made; with
    [nil] either the writer had a connection and nothing happened, or it
    had none, dialled its URL once, started one reader on the new
    connection and stored it. *)
Theorem Connect_is_all_or_nothing (w : Websocket T) w' e effs :
  ConnectWithContext url_Parse no_headers Sign Dial w = (w', e, effs) ->
  let url := URL (conf w) in
  (e <> None -> w' = w /\ (effs = [] \/ effs = [Dialed url])) /\
  (e = None ->
   (client w <> None /\ w' = w /\ effs = []) \/
   (client w = None /\ w' = with_client w (client w') /\
    effs = [Dialed url; go_reader (client w')])).
Proof. apply Connect_cases. Qed.

(** X12.  [CloseAsync] leaves the writer without a connection and closes the
    one it had; without a connection, and so a second time, it closes
    nothing; afterwards a write returns [ErrNotConnected], and a connect
    that succeeds has dialled the URL again. *)
Theorem CloseAsync_closes_once (w : Websocket T) :
  let w1 := fst (CloseAsync w) in
  client w1 = None /\
  (forall c, client w = Some c -> snd (CloseAsync w) = [c]) /\
  (client w = None -> CloseAsync w = (w, [])) /\
  CloseAsync w1 = (w1, []) /\
  (forall msg,
     WriteWithContext WriteMessage Iter w1 msg =
     (w1, Some ErrNotConnected)) /\
  (forall w2 effs,
     ConnectWithContext url_Parse no_headers Sign Dial w1 =
     (w2, None, effs) ->
     In (Dialed (URL (conf w))) effs).
Proof.
  cbv zeta.
  assert (N : client (fst (CloseAsync w)) = None)
    by (unfold CloseAsync; destruct (client w) eqn:C; [reflexivity | exact C]).
  assert (E : URL (conf (fst (CloseAsync w))) = URL (conf w))
    by (unfold CloseAsync; destruct (client w); reflexivity).
  split; [exact N|].
  split; [intros c C; unfold CloseAsync; rewrite C; reflexivity|].
  split; [intros C; unfold CloseAsync; rewrite C; reflexivity|].
  split; [unfold CloseAsync at 1; rewrite N; reflexivity|].
  split.
  - intros msg. unfold WriteWithContext, getWS. rewrite N. reflexivity.
  - intros w2 effs K. apply Connect_cases in K.
    destruct K as [_ K]. destruct (K eq_refl) as [[X _]|[_ [_ ->]]];
      [congruence|]. rewrite E. cbn. auto.
Qed.

(** X13.  [NewWebsocket] fails only with TLS enabled, with the error of
    [conf.TLS.Get]; the writer that it returns keeps the configuration and
    has no connection: a write on it returns [ErrNotConnected]. *)
Theorem NewWebsocket_is_not_connected (c : WebsocketConfig) :
  (TLS_Enabled c = false ->
   NewWebsocket TLS_Get c =
   (Some {| conf := c; client := None; tlsConf := None |}, None)) /\
  (forall e, NewWebsocket TLS_Get c = (None, Some e) ->
             TLS_Enabled c = true /\ snd (TLS_Get c) = Some e) /\
  (forall w, NewWebsocket TLS_Get c = (Some w, None) ->
             conf w = c /\ client w = None /\
             forall msg,
               WriteWithContext WriteMessage Iter w msg =
               (w, Some ErrNotConnected)) /\
  ((exists w, NewWebsocket TLS_Get c = (Some w, None)) \/
   (exists e, NewWebsocket TLS_Get c = (None, Some e))).
Proof.
  unfold NewWebsocket.
  destruct (TLS_Enabled c); [destruct (TLS_Get c) as [t [e|]]|]; cbn.
  - split; [discriminate|]. split; [intros x [= <-]; auto|].
    split; [discriminate|]. right. eauto.
  - split; [discriminate|]. split; [discriminate|].
    split; [intros w [= <-]; auto|]. left. eauto.
  - split; [reflexivity|]. split; [discriminate|].
    split; [intros w [= <-]; auto|]. left. eauto.
Qed.

End WebsocketFacts.

(** ** More on the construction of the cache writer *)

(** X19.  [NewCache] returns a writer exactly when the key expression and the
    TTL expression parse and the manager has the target cache; a missing
    cache is reported after the expressions, with the name of the target;
    the writer holds the configuration and the two parsed fields. *)
Theorem NewCache_needs_the_cache (E : Type) (conf : CacheWriter.CacheConfig)
        (mgr : CacheWriter.Manager E) :
  let key := CacheWriter.NewField mgr (CacheWriter.Key conf) in
  let ttl := CacheWriter.NewField mgr (CacheWriter.TTL conf) in
  let found := CacheWriter.ProbeCache mgr (CacheWriter.Target conf) in
  (fst (CacheWriter.NewCache conf mgr) <> None <->
   snd key = None /\ snd ttl = None /\ found = true) /\
  (snd key = None -> snd ttl = None -> found = false ->
   CacheWriter.NewCache conf mgr =
   (None, Some (Errorf_s "cache resource '%v' was not found"
                         (CacheWriter.Target conf)))) /\
  (forall c, fst (CacheWriter.NewCache conf mgr) = Some c ->
     snd (CacheWriter.NewCache conf mgr) = None /\
     CacheWriter.conf E c = conf /\
     CacheWriter.key E c = fst key /\
     CacheWriter.ttl E c = fst ttl).
Proof.
  cbv zeta. unfold CacheWriter.NewCache.
  destruct (CacheWriter.NewField mgr (CacheWriter.Key conf)) as [k [ek|]];
    destruct (CacheWriter.NewField mgr (CacheWriter.TTL conf)) as [t [et|]];
    destruct (CacheWriter.ProbeCache mgr (CacheWriter.Target conf));
    cbn; (split; [split|split]);
    try discriminate; try tauto; try congruence;
    try (intros [? [? ?]]; discriminate);
    try (intros c [= <-]; cbn; auto).
Qed.

(** ** Writes to a cache *)

Section CacheFacts.
Import CacheWrites.

Lemma lookup_remove_ne k k' m : k <> k' -> lookup k (remove k' m) = lookup k m.
Proof.
  intros N. induction m as [|[k0 v] r IH]; [reflexivity|]. cbn.
  destruct (string_dec k' k0) as [->|N0].
  - rewrite IH. destruct (string_dec k k0); [contradiction|reflexivity].
  - cbn. rewrite IH. reflexivity.
Qed.

Lemma lookup_insert_eq k v m : lookup k (insert k v m) = Some v.
Proof. cbn. destruct (string_dec k k); [reflexivity|contradiction]. Qed.

Lemma lookup_insert_ne k k' v m :
  k <> k' -> lookup k (insert k' v m) = lookup k m.
Proof.
  intros N. cbn. destruct (string_dec k k'); [contradiction|].
  apply lookup_remove_ne, N.
Qed.

Variable target : string.
Variable key_String : nat -> Batch -> string.
Variable ttl_String : nat -> Batch -> string.
Variable ParseDuration : string -> Duration * err.
Variable AccessCache : string -> option V1 * err.

(** [collect] fails with the error of the first part whose TTL is
    refused, and only then. *)
Lemma collect_error msg : forall parts i m m' e,
  collect key_String ttl_String ParseDuration i parts msg m = (m', Some e) ->
  exists n, (n < List.length parts)%nat /\
    snd (part_ttl ttl_String ParseDuration (i + n) msg) = Some e /\
    forall n', (n' < n)%nat ->
               snd (part_ttl ttl_String ParseDuration (i + n') msg) = None.
Proof.
  induction parts as [|p rest IH]; intros i m m' e; [discriminate|].
  cbn [collect].
  destruct (part_ttl ttl_String ParseDuration i msg) as [ttl [x|]] eqn:P.
  - intros [= <- <-]. exists 0%nat. rewrite Nat.add_0_r, P.
    split; [cbn; lia|]. split; [reflexivity|]. intros n' L. lia.
  - intros C. apply IH in C. destruct C as [n [L [E F]]].
    exists (S n). rewrite Nat.add_succ_r. split; [cbn; lia|].
    split; [exact E|]. intros [|n'] L'.
    + rewrite Nat.add_0_r, P. reflexivity.
    + rewrite Nat.add_succ_r. apply F. lia.
Qed.

Lemma collect_ok msg : forall parts i m m',
  collect key_String ttl_String ParseDuration i parts msg m = (m', None) ->
  (forall n, (n < List.length parts)%nat ->
             snd (part_ttl ttl_String ParseDuration (i + n) msg) = None) /\
  (forall k, (forall n, (n < List.length parts)%nat ->
                        key_String (i + n) msg <> k) ->
             lookup k m' = lookup k m) /\
  (forall n, (n < List.length parts)%nat ->
     (forall n', (n < n' < List.length parts)%nat ->
                 key_String (i + n') msg <> key_String (i + n) msg) ->
     lookup (key_String (i + n) msg) m' =
     Some {| Value := nth n parts EmptyString;
             TTL := fst (part_ttl ttl_String ParseDuration (i + n) msg) |}).
Proof.
  induction parts as [|p rest IH]; intros i m m'.
  - intros [= <-]. cbn. repeat split; intros; try lia; reflexivity.
  - cbn [collect].
    destruct (part_ttl ttl_String ParseDuration i msg) as [ttl [x|]] eqn:P;
      [discriminate|].
    intros C. apply IH in C. destruct C as [V [O L]].
    split; [|split].
    + intros [|n] B.
      * rewrite Nat.add_0_r, P. reflexivity.
      * rewrite Nat.add_succ_r. apply V. cbn in B. lia.
    + intros k N. rewrite O.
      * apply lookup_insert_ne. intros E. subst k.
        apply (N 0%nat); [cbn; lia|].
        rewrite Nat.add_0_r. reflexivity.
      * intros n B. specialize (N (S n)). rewrite Nat.add_succ_r in N.
        apply N. cbn. lia.
    + intros [|n] B U.
      * rewrite Nat.add_0_r. rewrite O.
        -- rewrite lookup_insert_eq, P. reflexivity.
        -- intros n B'. specialize (U (S n)).
           rewrite Nat.add_succ_r, Nat.add_0_r in U. apply U. cbn. lia.
      * rewrite Nat.add_succ_r. cbn [nth]. apply L; [cbn in B; lia|].
        intros n' B'. specialize (U (S n')). rewrite !Nat.add_succ_r in U.
        apply U. cbn. lia.
Qed.

Lemma collect_total msg : forall parts i m,
  (forall n, (n < List.length parts)%nat ->
             snd (part_ttl ttl_String ParseDuration (i + n) msg) = None) ->
  snd (collect key_String ttl_String ParseDuration i parts msg m) = None.
Proof.
  induction parts as [|p rest IH]; intros i m V; [reflexivity|].
  cbn [collect]. pose proof (V 0%nat) as V0. rewrite Nat.add_0_r in V0.
  destruct (part_ttl ttl_String ParseDuration i msg) as [ttl [x|]].
  - specialize (V0 ltac:(cbn; lia)). discriminate.
  - apply IH. intros n B. specialize (V (S n)). rewrite Nat.add_succ_r in V.
    apply V. cbn. lia.
Qed.

(** X14.  [writeMulti] calls the cache at most once, with [SetMulti], and not
    at all when some part has a TTL that does not parse: the error is
    then the one of the first such part; when [SetMulti] is called, the
    error is the one that it returned. *)
Theorem writeMulti_writes_all_or_nothing msg e calls :
  writeMulti target key_String ttl_String ParseDuration AccessCache msg
    = (e, calls) ->
  (calls = [] \/ exists m, calls = [SetMulti m]) /\
  (forall n x, (n < List.length msg)%nat ->
               snd (part_ttl ttl_String ParseDuration n msg) = Some x ->
               calls = []) /\
  (forall cache,
     AccessCache target = (Some cache, None) ->
     (forall x, e = Some x -> calls = [] ->
        exists n, (n < List.length msg)%nat /\
          snd (part_ttl ttl_String ParseDuration n msg) = Some x /\
          forall n', (n' < n)%nat ->
            snd (part_ttl ttl_String ParseDuration n' msg) = None) /\
     (forall m, calls = [SetMulti m] -> e = SetMulti_result cache m)).
Proof.
  unfold writeMulti. destruct (AccessCache target) as [[cache|] cerr].
  - destruct (collect _ _ _ _ _ _ _) as [m [x|]] eqn:C.
    + intros [= <- <-]. split; [auto|]. split; [auto|].
      intros cache' [= <- ->]. split; [|discriminate].
      intros y [= <-] _. apply collect_error in C. exact C.
    + intros [= <- <-]. split; [eauto|]. split.
      * intros n x B P. apply collect_ok in C. destruct C as [V _].
        specialize (V n B). cbn in V. congruence.
      * intros cache' [= <- ->]. split; [discriminate|].
        intros m' [= <-]. reflexivity.
  - intros [= <- <-]. split; [auto|]. split; [auto|]. discriminate.
Qed.

(** X15.  When [writeMulti] calls [SetMulti], every part had a valid TTL, the
    keys of the map are keys of parts, and under the key of a part the
    map holds the value and the TTL of that part, unless a later part has
    the same key: of the parts that share a key the last one is
    written. *)
Theorem writeMulti_last_part_wins msg e m :
  writeMulti target key_String ttl_String ParseDuration AccessCache msg
    = (e, [SetMulti m]) ->
  (forall n, (n < List.length msg)%nat ->
             snd (part_ttl ttl_String ParseDuration n msg) = None) /\
  (forall k, lookup k m <> None ->
             exists n, (n < List.length msg)%nat /\ key_String n msg = k) /\
  (forall n, (n < List.length msg)%nat ->
     (forall n', (n < n' < List.length msg)%nat ->
                 key_String n' msg <> key_String n msg) ->
     lookup (key_String n msg) m =
     Some {| Value := nth n msg EmptyString;
             TTL := fst (part_ttl ttl_String ParseDuration n msg) |}).
Proof.
  unfold writeMulti. destruct (AccessCache target) as [[cache|] cerr];
    [|discriminate].
  destruct (collect _ _ _ _ _ _ _) as [m' [x|]] eqn:C; [discriminate|].
  intros [= _ <-]. apply collect_ok in C. destruct C as [V [O L]].
  cbn in V, O, L. split; [exact V|]. split; [|exact L].
  intros k N.
  destruct (existsb (fun n => if string_dec (key_String n msg) k
                              then true else false)
                    (seq 0 (List.length msg))) eqn:X.
  - apply existsb_exists in X. destruct X as [n [I K]].
    apply in_seq in I. exists n. split; [lia|].
    destruct (string_dec (key_String n msg) k); [assumption|discriminate].
  - exfalso. apply N. rewrite O; [reflexivity|].
    intros n B E.
    assert (Y : existsb (fun n => if string_dec (key_String n msg) k
                                  then true else false)
                        (seq 0 (List.length msg)) = true).
    { apply existsb_exists. exists n. split; [apply in_seq; lia|].
      destruct (string_dec (key_String n msg) k); [reflexivity|contradiction]. }
    congruence.
Qed.

(** X16.  For a batch of one part, the cache being accessible: an empty TTL
    makes [WriteWithContext] call [Set] without TTL, whatever the
    duration parser makes of the empty string; a TTL that parses is passed
    to [Set]; one that does not parse is an error, and the cache is not
    called. *)
Theorem single_write_ttl p cache e calls :
  AccessCache target = (Some cache, None) ->
  WriteWithContext target key_String ttl_String ParseDuration AccessCache
    [p] = (e, calls) ->
  let ttls := ttl_String 0%nat [p] in
  let key := key_String 0%nat [p] in
  (ttls = EmptyString ->
   calls = [Set_ key p None] /\ e = Set_result cache key p None) /\
  (forall t, ttls <> EmptyString -> ParseDuration ttls = (t, None) ->
   calls = [Set_ key p (Some t)] /\ e = Set_result cache key p (Some t)) /\
  (forall t terr, ttls <> EmptyString ->
   ParseDuration ttls = (t, Some terr) ->
   calls = [] /\ e = Some (Errorf_e "ttl field: %w" terr)).
Proof.
  intros A. unfold WriteWithContext, part_ttl, first_part. cbn [List.length].
  replace (1 <? 1)%nat with false by reflexivity. rewrite A. cbn [hd].
  intros W. cbn zeta.
  destruct (string_dec (ttl_String 0%nat [p]) EmptyString) as [Z|N].
  - injection W as <- <-. split; [auto|]. split; intros; contradiction.
  - split; [intros; contradiction|].
    destruct (ParseDuration (ttl_String 0%nat [p])) as [t [terr|]].
    + injection W as <- <-. split; [discriminate|].
      intros t' terr' _ [= <- <-]. auto.
    + injection W as <- <-. split; [|discriminate].
      intros t' _ [= <-]. auto.
Qed.

(** X17.  [WriteWithContext] calls the cache at most once: [SetMulti] only for
    a batch of more than one part, [Set] only for a batch of at most one
    part, with the key and the content of the part 0, and with a TTL
    exactly when the TTL field is not empty; when [AccessCache] does not
    run the function, the cache is not called. *)
Theorem write_calls_the_cache_at_most_once msg :
  let calls :=
    snd (WriteWithContext target key_String ttl_String ParseDuration
           AccessCache msg) in
  (List.length calls <= 1)%nat /\
  (forall m, In (SetMulti m) calls -> (1 < List.length msg)%nat) /\
  (forall k v t, In (Set_ k v t) calls ->
     (List.length msg <= 1)%nat /\ k = key_String 0%nat msg /\
     v = first_part msg /\
     (t = None <-> ttl_String 0%nat msg = EmptyString)) /\
  (fst (AccessCache target) = None -> calls = []).
Proof.
  unfold WriteWithContext, writeMulti.
  destruct (1 <? List.length msg)%nat eqn:L.
  - apply Nat.ltb_lt in L.
    destruct (AccessCache target) as [[cache|] cerr]; cbn.
    + destruct (collect _ _ _ _ _ _ _) as [m [x|]]; cbn.
      * repeat split; try lia; try contradiction; discriminate.
      * split; [lia|]. split; [auto|]. split; [|discriminate].
        intros k v t [I|[]]. discriminate.
    + repeat split; try lia; try contradiction; auto.
  - apply Nat.ltb_ge in L.
    destruct (AccessCache target) as [[cache|] cerr]; cbn.
    + unfold part_ttl.
      destruct (string_dec (ttl_String 0%nat msg) EmptyString) as [Z|N]; cbn.
      * split; [lia|]. split; [intros m [I|[]]; discriminate|].
        split; [|discriminate]. intros k v t [[= <- <- <-]|[]].
        repeat split; auto.
      * destruct (ParseDuration (ttl_String 0%nat msg)) as [t [terr|]]; cbn.
        -- repeat split; try lia; try contradiction; discriminate.
        -- split; [lia|]. split; [intros m [I|[]]; discriminate|].
           split; [|discriminate]. intros k v t' [[= <- <- <-]|[]].
           repeat split; auto; try discriminate. intros; contradiction.
    + repeat split; try lia; try contradiction; auto.
Qed.

End CacheFacts.

(** X18.  The error of [AccessCache] is the error of the write, for batches of
    any length, and does not change what the write asks of the cache. *)
Theorem AccessCache_error_wins target key_String ttl_String ParseDuration
        AccessCache ac x msg :
  AccessCache target = (ac, Some x) ->
  let W := CacheWrites.WriteWithContext target key_String ttl_String
             ParseDuration in
  fst (W AccessCache msg) = Some x /\
  snd (W AccessCache msg) = snd (W (fun _ => (ac, None)) msg).
Proof.
  intros A. cbn zeta. unfold CacheWrites.WriteWithContext,
    CacheWrites.writeMulti. rewrite A.
  destruct (1 <? List.length msg)%nat.
  - destruct ac as [cache|]; [|auto].
    destruct (CacheWrites.collect _ _ _ _ _ _ _) as [m [y|]]; auto.
  - destruct ac as [cache|]; [|auto].
    destruct (CacheWrites.part_ttl _ _ _ _) as [t [y|]]; auto.
Qed.

(** ** The further properties on concrete runs *)

Import Cases.

Lemma plain_loop_only_forwards_witness :
  onError (decorator false 0) = false /\
  onBackpressure (decorator false 0) <= 0 /\
  forallb forwards_only
    (kinds (trail (fst (loop (decorator false 0) rc None 1000
                             [env (Some 2) (Some 3) (Some rejected);
                              closed_input] None 0)))) = true.
Proof.
  split; [reflexivity|]. split; [discriminate|].
  exact (proj1 (plain_loop_only_forwards
                  (decorator false 0) rc None 1000
                  [env (Some 2) (Some 3) (Some rejected); closed_input]
                  None 0 eq_refl ltac:(discriminate))).
Defined.

Lemma stalled_child_costs_no_wait_witness :
  0 < onBackpressure (decorator false 10) /\
  gotBackPressure stalled = true /\
  Forall refused [env (Some 4) (Some 3) None; env None None None] /\
  gotBackPressure
    (fst (rounds (decorator false 10) rc None
                 [env (Some 4) (Some 3) None; env None None None] stalled))
    = true /\
  now (fst (rounds (decorator false 10) rc None
                   [env (Some 4) (Some 3) None; env None None None] stalled))
    = 112.
Proof.
  assert (F : Forall refused [env (Some 4) (Some 3) None;
                              env None None None]).
  { assert (R : forall a r, later a 0 -> refused (env a r None)).
    { intros a r L. split; [discriminate|]. split; [discriminate|].
      split; [exact L|]. exists 1. split; [reflexivity | discriminate]. }
    constructor; [apply R; reflexivity|].
    constructor; [apply R; exact I | constructor]. }
  split; [reflexivity|]. split; [reflexivity|]. split; [exact F|].
  destruct (stalled_child_costs_no_wait
              (decorator false 10) rc None
              [env (Some 4) (Some 3) None; env None None None]
              stalled _ _ eq_refl eq_refl eq_refl F eq_refl)
    as [G [N _]].
  split; [exact G | exact N].
Defined.

Lemma WaitForClose_is_bounded_witness :
  0 <= 5 /\
  DropOn.WaitForClose (Some 11) 5 8 0 = (11, None) /\
  8 <= 11 <= 8 + 5.
Proof.
  split; [discriminate|]. split; [reflexivity|].
  exact (proj1 (WaitForClose_is_bounded
                  (Some 11) 5 8 0%nat 11 None ltac:(discriminate) eq_refl)).
Defined.

Lemma closed_input_shuts_down_witness :
  in_val closed_input = None /\
  exists t t',
    loop (decorator true 10) rc None 1000
         [closed_input; env (Some 2) (Some 3) None] (Some 3) 0 =
    ({| now := t';
        gotBackPressure := false;
        trail := [(t, CloseOut); (t, ChildCloseAsync);
                  (t', ChildAwaited 1000); (t', Closed)] |}, true) /\
    0 <= t <= t'.
Proof.
  split; [reflexivity|].
  exact (closed_input_shuts_down
           (decorator true 10) rc None 1000 closed_input
           [env (Some 2) (Some 3) None] (Some 3) 0 eq_refl).
Defined.

Lemma Consume_starts_the_loop_on_success_witness :
  transactionsIn unbound = None /\
  Consume unbound (Some 5%nat) = (decorator false 0, None, [go_loop]) /\
  wrapped (decorator false 0) =
    fst (Streamed_Consume (wrapped unbound) (transactionsOut unbound)).
Proof.
  split; [reflexivity|]. split; [reflexivity|].
  exact (proj1 (proj2 (Consume_starts_the_loop_on_success
                         (option chan) bound_once unbound (Some 5%nat)
                         (decorator false 0) None [go_loop]
                         eq_refl eq_refl))).
Defined.

Lemma Write_never_reports_close_sent_witness :
  Websocket.WriteWithContext ws_write (Websocket.Iter_from 0) ws_connected
                             ["ok"; "bad"; "ok"]%string =
    (Websocket.with_client ws_connected None, Some (Foreign "broken pipe")) /\
  Some (Foreign "broken pipe") <> Some ErrCloseSent.
Proof.
  split; [reflexivity|].
  exact (proj1 (@Write_never_reports_close_sent
                  unit ws_write (Websocket.Iter_from 0) ws_connected
                  ["ok"; "bad"; "ok"]%string _ _ eq_refl)).
Defined.

Lemma Connect_is_all_or_nothing_witness :
  Websocket.ConnectWithContext
    ws_parse tt ws_sign ws_dial (Websocket.with_client ws_connected None) =
    (Websocket.with_client ws_connected (Some 2%nat), None,
     [Websocket.Dialed "ws://example.com/foo/messages";
      Websocket.go_reader (Some 2%nat)]) /\
  (Websocket.client (Websocket.with_client ws_connected None) <> None /\
   Websocket.with_client ws_connected (Some 2%nat) =
     Websocket.with_client ws_connected None /\
   [Websocket.Dialed "ws://example.com/foo/messages";
    Websocket.go_reader (Some 2%nat)] = [] \/
   Websocket.client (Websocket.with_client ws_connected None) = None /\
   Websocket.with_client ws_connected (Some 2%nat) =
     Websocket.with_client (Websocket.with_client ws_connected None)
                           (Some 2%nat) /\
   [Websocket.Dialed "ws://example.com/foo/messages";
    Websocket.go_reader (Some 2%nat)] =
   [Websocket.Dialed "ws://example.com/foo/messages";
    Websocket.go_reader (Some 2%nat)]).
Proof.
  split; [reflexivity|].
  exact (proj2 (@Connect_is_all_or_nothing
                  unit string unit ws_parse tt ws_sign ws_dial
                  (Websocket.with_client ws_connected None) _ _ _ eq_refl)
               eq_refl).
Defined.

Lemma single_write_ttl_witness :
  access "foo" = (Some cache_ok, None) /\
  CacheWrites.WriteWithContext "foo" content (static "") GoTime.ParseDuration
                               access ["a"%string] =
    (None, [CacheWrites.Set_ "a" "a" None]) /\
  snd (GoTime.ParseDuration "") = Some GoTime.invalid /\
  [CacheWrites.Set_ "a" "a" None] =
    [CacheWrites.Set_ (content 0 ["a"%string]) "a" None].
Proof.
  split; [reflexivity|]. split; [reflexivity|]. split; [reflexivity|].
  exact (proj1 (proj1 (single_write_ttl
                         "foo" content (static "") GoTime.ParseDuration
                         access "a" cache_ok _ _ eq_refl eq_refl)
                      eq_refl)).
Defined.

Lemma AccessCache_error_wins_witness :
  access_failing "foo" = (Some cache_ok, Some unavailable) /\
  CacheWrites.WriteWithContext "foo" content (static "10ms")
                               GoTime.ParseDuration access_failing
                               ["a"%string] =
    (Some unavailable, [CacheWrites.Set_ "a" "a" (Some 10000000)]) /\
  fst (CacheWrites.WriteWithContext "foo" content (static "10ms")
                                    GoTime.ParseDuration access_failing
                                    ["a"; "b"]%string) = Some unavailable.
Proof.
  split; [reflexivity|]. split; [reflexivity|].
  exact (proj1 (AccessCache_error_wins
                  "foo" content (static "10ms") GoTime.ParseDuration
                  access_failing (Some cache_ok) unavailable
                  ["a"; "b"]%string eq_refl)).
Defined.

Lemma writeMulti_writes_all_or_nothing_witness :
  CacheWrites.writeMulti "foo" (static "k") content GoTime.ParseDuration
                         access ["10ms"; "soon"; "1s"]%string =
    (Some (Errorf_e "ttl field: %w" GoTime.invalid), []) /\
  exists n, (n < 3)%nat /\
    snd (CacheWrites.part_ttl content GoTime.ParseDuration n
                              ["10ms"; "soon"; "1s"]%string) =
      Some (Errorf_e "ttl field: %w" GoTime.invalid) /\
    forall n', (n' < n)%nat ->
      snd (CacheWrites.part_ttl content GoTime.ParseDuration n'
                                ["10ms"; "soon"; "1s"]%string) = None.
Proof.
  split; [reflexivity|].
  destruct (writeMulti_writes_all_or_nothing
              "foo" (static "k") content GoTime.ParseDuration access
              ["10ms"; "soon"; "1s"]%string _ _ eq_refl) as [_ [_ H]].
  exact (proj1 (H cache_ok eq_refl) _ eq_refl eq_refl).
Defined.

Lemma writeMulti_last_part_wins_witness :
  CacheWrites.writeMulti "foo" content (static "10ms") GoTime.ParseDuration
                         access ["a"; "b"; "a"]%string =
    (None,
     [CacheWrites.SetMulti
        [("a"%string,
          {| CacheWrites.Value := "a"; CacheWrites.TTL := Some 10000000 |});
         ("b"%string,
          {| CacheWrites.Value := "b";
             CacheWrites.TTL := Some 10000000 |})]]) /\
  forall n, (n < 3)%nat ->
    snd (CacheWrites.part_ttl (static "10ms") GoTime.ParseDuration n
                              ["a"; "b"; "a"]%string) = None.
Proof.
  split; [reflexivity|].
  exact (proj1 (writeMulti_last_part_wins
                  "foo" content (static "10ms") GoTime.ParseDuration access
                  ["a"; "b"; "a"]%string _ _ eq_refl)).
Defined.
